(** * CleanStream audio filter: streaming segmentation pipeline

    A shallow embedding of [src/audio-filter.cpp]: the timed audio queue,
    the segment assembler, the signal gate, the filler classifier, the
    adaptive latency controller and the output assembler, followed by the
    properties of the specification that were checked against them.

    Conventions.
    - [uint32_t] and [size_t]/[uint64_t] values are integers of [Z] with the
      wrap-around written out ([wrap32], [wrap64]); [size_t] is 64 bits wide.
    - [float] is IEEE-754 binary32 and [double] binary64, both with
      round-to-nearest-even, through the Standard Library's [SpecFloat].
    - A [struct circlebuf] (libobs, [util/circlebuf.h]) is a byte FIFO; it only
      ever holds whole elements here, so it is a list of elements whose byte
      size is the element size times the length.  [circlebuf_push_back]
      appends at the back, [circlebuf_pop_front] removes from the front and
      asserts that enough bytes are present.
    - A failed assertion, an access outside an array, a [memcpy] between
      overlapping ranges and an integer division by zero are [None]. *)

From Stdlib Require Import String Ascii DecimalString.
From Stdlib Require Import ZArith QArith Qabs Bool Lia List.
From Stdlib Require Import Floats.SpecFloat.
Import ListNotations.

Local Open Scope Z_scope.

(** ** Machine integers *)

Definition wrap32 (z : Z) : Z := z mod 2 ^ 32.
Definition wrap64 (z : Z) : Z := z mod 2 ^ 64.

(** [sizeof(float)]. *)
Definition sizeof_float : Z := 4.

(** The length of the arrays [copy_buffers], [input_buffers] and
    [output_buffers] of [struct cleanstream_data]. *)
Definition MAX_PREPROC_CHANNELS : Z := 2.

Definition BUFFER_SIZE_MSEC : Z := 1010.
Definition OVERLAP_SIZE_MSEC : Z := 340.
Definition WHISPER_SAMPLE_RATE : Z := 16000.

(** ** IEEE-754 arithmetic of the source's [float] and [double] *)

Module f32.
Definition prec : Z := 24.
Definition emax : Z := 128.
Definition t : Type := spec_float.

Definition zero : t := S754_zero false.
Definition nan : t := S754_nan.
Definition add : t -> t -> t := SFadd prec emax.
Definition sub : t -> t -> t := SFsub prec emax.
Definition mul : t -> t -> t := SFmul prec emax.
Definition div : t -> t -> t := SFdiv prec emax.
Definition abs : t -> t := SFabs.
Definition ltb : t -> t -> bool := SFltb.
Definition leb : t -> t -> bool := SFleb.

(** Conversion of an integer to [float]. *)
Definition of_Z (z : Z) : t := binary_normalize prec emax z 0 false.

(** A decimal literal [n / d] with [n] and [d] exactly representable: the
    correctly rounded quotient is the nearest [float]. *)
Definition lit (n d : Z) : t := div (of_Z n) (of_Z d).

(** [(uint64_t)x] for a finite non-negative [x]: truncation towards zero.
    Other values have no defined conversion and are mapped to 0. *)
Definition to_u64 (x : t) : Z :=
  match x with
  | S754_finite false m e => wrap64 (Z.shiftl (Zpos m) e)
  | _ => 0
  end.

Definition is_nan (x : t) : bool :=
  match x with S754_nan => true | _ => false end.
End f32.

Module f64.
Definition prec : Z := 53.
Definition emax : Z := 1024.
Definition t : Type := spec_float.

Definition mul : t -> t -> t := SFmul prec emax.
Definition div : t -> t -> t := SFdiv prec emax.

(** Widening [float] to [double] is exact. *)
Definition of_f32 (x : f32.t) : t :=
  match x with
  | S754_finite s m e => binary_round prec emax s m e
  | _ => x
  end.

(** Narrowing [double] to [float] rounds to nearest. *)
Definition to_f32 (x : t) : f32.t :=
  match x with
  | S754_finite s m e => binary_round f32.prec f32.emax s m e
  | _ => x
  end.

(** [M_PI], 3.14159265358979323846, as the nearest [double]. *)
Definition M_PI : t := S754_finite false 7074237752028440 (-51).
End f64.

Definition VAD_THOLD : f32.t := f32.lit 1 10000.
Definition FREQ_THOLD : f32.t := f32.of_Z 100.

(** ** A small error monad: [None] is a failed assertion or a stray access *)

Definition obind {A B : Type} (m : option A) (k : A -> option B) : option B :=
  match m with
  | Some a => k a
  | None => None
  end.

Notation "x <- m ;; k" := (obind m (fun x => k))
  (at level 61, m at next level, right associativity).
Notation "' p <- m ;; k" := (obind m (fun x => match x with p => k end))
  (at level 61, p pattern, m at next level, right associativity).

Fixpoint mapM {A B : Type} (f : A -> option B) (l : list A) : option (list B) :=
  match l with
  | [] => Some []
  | a :: l' => b <- f a ;; bs <- mapM f l' ;; Some (b :: bs)
  end.

(** ** [struct circlebuf] and plain arrays *)

Module circlebuf.
Section Elements.
Context {A : Type}.
(** [elt] is the size in bytes of one element. *)
Variable elt : Z.

Definition size (cb : list A) : Z := elt * Z.of_nat (length cb).

Definition push_back (cb data : list A) : list A := cb ++ data.

(** [circlebuf_pop_front(cb, data, bytes)]: [assert(bytes <= cb->size)],
    then the first [bytes] bytes go to [data] and leave the buffer. *)
Definition pop_front (cb : list A) (bytes : Z) : option (list A * list A) :=
  if bytes <=? size cb
  then let n := Z.to_nat (bytes / elt) in Some (firstn n cb, skipn n cb)
  else None.
End Elements.
End circlebuf.

Section Arrays.
Context {A : Type}.

(** The [n] elements of [buf] from index [off] on, [None] outside [buf]. *)
Definition read_range (buf : list A) (off n : Z) : option (list A) :=
  if (0 <=? off) && (0 <=? n) && (off + n <=? Z.of_nat (length buf))
  then Some (firstn (Z.to_nat n) (skipn (Z.to_nat off) buf))
  else None.

(** [buf] with [data] stored from index [off] on, [None] outside [buf]. *)
Definition write_range (buf : list A) (off : Z) (data : list A) : option (list A) :=
  if (0 <=? off) && (off + Z.of_nat (length data) <=? Z.of_nat (length buf))
  then Some (firstn (Z.to_nat off) buf ++ data
             ++ skipn (Z.to_nat off + length data) buf)
  else None.
End Arrays.

(** ** Data model *)

(** [struct cleanstream_audio_info]. *)
Record cleanstream_audio_info : Type := mk_info {
  info_frames : Z;       (* uint32_t frames *)
  info_timestamp : Z     (* uint64_t timestamp *)
}.

Section Pipeline.
(** The queueing code moves samples and never computes with them. *)
Variable sample : Type.

(** The per-channel entries [copy_buffers[c]], [input_buffers[c]] and
    [output_buffers[c]] of [struct cleanstream_data]. *)
Record channel_buffers : Type := mk_channel {
  copy_buffer : list sample;     (* gf->frames floats *)
  input_buffer : list sample;    (* circlebuf of floats *)
  output_buffer : list sample    (* circlebuf of floats *)
}.

(** [struct cleanstream_data]; [channels] is the length of [buffers].  The
    three arrays of the source have [MAX_PREPROC_CHANNELS] entries: the
    code that walks over the channels fails on a longer list. *)
Record cleanstream_data : Type := mk_data {
  sample_rate : Z;
  frames : Z;
  overlap_frames : Z;
  overlap_ms : Z;
  last_num_frames : Z;
  buffers : list channel_buffers;
  info_buffer : list cleanstream_audio_info;
  info_out_buffer : list cleanstream_audio_info;
  whisper_context : bool;        (* true: not [nullptr] *)
  filler_p_threshold : f32.t
}.

Definition channels (gf : cleanstream_data) : Z := Z.of_nat (length (buffers gf)).

(** The channels fit the arrays of the struct. *)
Definition channels_fit (gf : cleanstream_data) : bool :=
  channels gf <=? MAX_PREPROC_CHANNELS.

(** [struct obs_audio_data]. *)
Record obs_audio_data : Type := mk_audio {
  audio_data : list (list sample);
  audio_frames : Z;
  audio_timestamp : Z
}.

(** ** Segment assembler: the first block of [process_audio_from_buffer] *)

(** The [while] loop over [gf->info_buffer].  [target] is
    [gf->frames - gf->overlap_frames]; the result is
    [num_new_frames_from_infos], [start_timestamp] and the info queue left. *)
Fixpoint drain_infos (target : Z) (q : list cleanstream_audio_info)
    (num_new start_timestamp : Z) : Z * Z * list cleanstream_audio_info :=
  match q with
  | [] => (num_new, start_timestamp, [])
  | info_from_buf :: rest =>
      let num_new := wrap32 (num_new + info_frames info_from_buf) in
      let start_timestamp :=
        if start_timestamp =? 0 then info_timestamp info_from_buf
        else start_timestamp in
      if num_new >=? target
      then (wrap32 (num_new - info_frames info_from_buf), start_timestamp,
            circlebuf.push_back rest [info_from_buf])
      else drain_infos target rest num_new start_timestamp
  end.

(** [memcpy(dst, src, bytes)] inside one array of [float], with [dst] and
    [src] given as indices: the elements that [bytes] cover are read from
    [src] on and stored from [dst] on.  The two ranges must not overlap. *)
Definition memcpy_within (buf : list sample) (dst src bytes : Z) : option (list sample) :=
  let n := bytes / sizeof_float in
  if (0 <? n) && (src <? dst + n) && (dst <? src + n) then None
  else
    data <- read_range buf src n ;;
    write_range buf dst data.

(** The body of the loop "Pop from input circlebuf" for one channel. *)
Definition pop_input (gf : cleanstream_data) (num_new : Z)
    (ch : channel_buffers) : option channel_buffers :=
  if 0 <? last_num_frames gf then
    cb <- memcpy_within (copy_buffer ch) 0
            (last_num_frames gf - overlap_frames gf)
            (wrap64 (overlap_frames gf * sizeof_float)) ;;
    '(data, rest) <- circlebuf.pop_front sizeof_float (input_buffer ch)
                       (wrap64 (num_new * sizeof_float)) ;;
    cb <- write_range cb (overlap_frames gf) data ;;
    Some (mk_channel cb rest (output_buffer ch))
  else
    '(data, rest) <- circlebuf.pop_front sizeof_float (input_buffer ch)
                       (wrap64 (wrap64 (num_new + overlap_frames gf) * sizeof_float)) ;;
    cb <- write_range (copy_buffer ch) 0 data ;;
    Some (mk_channel cb rest (output_buffer ch)).

(** The block under [whisper_buf_mutex]; also returns
    [num_new_frames_from_infos] and [start_timestamp]. *)
Definition assemble (gf : cleanstream_data) : option (cleanstream_data * Z * Z) :=
  let '(num_new, start_timestamp, infos) :=
    drain_infos (wrap64 (frames gf - overlap_frames gf)) (info_buffer gf) 0 0 in
  bufs <- (if channels_fit gf then mapM (pop_input gf num_new) (buffers gf)
           else None) ;;
  Some (mk_data (sample_rate gf) (frames gf) (overlap_frames gf) (overlap_ms gf)
          (wrap64 (num_new + overlap_frames gf))
          bufs infos (info_out_buffer gf) (whisper_context gf)
          (filler_p_threshold gf),
        num_new, start_timestamp).

(** ** Output assembler: the block under [whisper_outbuf_mutex] *)

Definition publish_channel (num_new : Z) (ch : channel_buffers) : option channel_buffers :=
  data <- read_range (copy_buffer ch) 0 num_new ;;
  Some (mk_channel (copy_buffer ch) (input_buffer ch)
          (circlebuf.push_back (output_buffer ch) data)).

Definition publish (gf : cleanstream_data) (num_new start_timestamp : Z)
    : option cleanstream_data :=
  let info_out := mk_info num_new start_timestamp in
  bufs <- (if channels_fit gf then mapM (publish_channel num_new) (buffers gf)
           else None) ;;
  Some (mk_data (sample_rate gf) (frames gf) (overlap_frames gf) (overlap_ms gf)
          (last_num_frames gf) bufs (info_buffer gf)
          (circlebuf.push_back (info_out_buffer gf) [info_out])
          (whisper_context gf) (filler_p_threshold gf)).

(** ** Adaptive latency controller: the end of [process_audio_from_buffer] *)

(** [new_frames_from_infos_ms], in [uint32_t] arithmetic; the cycle
    reaches this division with a [sample_rate] other than 0 only. *)
Definition new_frames_ms (num_new sample_rate : Z) : Z :=
  wrap32 (num_new * 1000) / sample_rate.

(** [(uint64_t)(new_frames_from_infos_ms * 0.75f)]. *)
Definition cap75 (new_ms : Z) : Z :=
  f32.to_u64 (f32.mul (f32.of_Z new_ms) (f32.lit 3 4)).

(** The new [overlap_ms]; [duration] is the measured time in ms. *)
Definition adapt_overlap_ms (overlap_ms new_ms duration : Z) (skipped_inference : bool) : Z :=
  if duration >? new_ms then Z.max (wrap64 (overlap_ms - 10)) 100
  else if negb skipped_inference then Z.min (wrap64 (overlap_ms + 10)) (cap75 new_ms)
  else overlap_ms.

Definition adapt (gf : cleanstream_data) (num_new duration : Z) (skipped_inference : bool)
    : cleanstream_data :=
  let new_ms := new_frames_ms num_new (sample_rate gf) in
  if (duration >? new_ms) || negb skipped_inference then
    let ms := adapt_overlap_ms (overlap_ms gf) new_ms duration skipped_inference in
    mk_data (sample_rate gf) (frames gf) (wrap64 (ms * sample_rate gf) / 1000) ms
      (last_num_frames gf) (buffers gf) (info_buffer gf) (info_out_buffer gf)
      (whisper_context gf) (filler_p_threshold gf)
  else gf.

(** The log line after the first block divides by [gf->sample_rate]. *)
Definition log_processing (gf : cleanstream_data) : option unit :=
  if sample_rate gf =? 0 then None else Some tt.

(** [process_audio_from_buffer] for a given verdict of the signal gate.  The
    resampler, the gate and the inference run between the two locked blocks
    on a buffer of their own; of their outcome [skipped_inference] and the
    measured [duration] reach the fields that this function reads.  The
    gate itself, with its reads and the engine's fault, is put in place of
    the verdict by [process_audio_from_buffer_gated] below. *)
Definition process_audio_from_buffer (gf : cleanstream_data)
    (skipped_inference : bool) (duration : Z) : option cleanstream_data :=
  '(gf, num_new, start_timestamp) <- assemble gf ;;
  _ <- log_processing gf ;;
  gf <- publish gf num_new start_timestamp ;;
  Some (adapt gf num_new duration skipped_inference).

(** The test of [whisper_loop] before each call; [segment_size] is
    [gf->frames * sizeof(float)]. *)
Definition enough_input (gf : cleanstream_data) : bool :=
  match buffers gf with
  | ch :: _ => wrap64 (frames gf * sizeof_float)
               <=? circlebuf.size sizeof_float (input_buffer ch)
  | [] => false
  end.

(** ** Timed audio queue and output pull: [cleanstream_filter_audio] *)

Fixpoint push_channels (bufs : list channel_buffers) (data : list (list sample))
    (nframes : Z) : option (list channel_buffers) :=
  match bufs, data with
  | [], _ => Some []
  | ch :: bufs', d :: data' =>
      new <- read_range d 0 nframes ;;
      rest <- push_channels bufs' data' nframes ;;
      Some (mk_channel (copy_buffer ch)
              (circlebuf.push_back (input_buffer ch) new) (output_buffer ch) :: rest)
  | _ :: _, [] => None
  end.

(** The block under [whisper_buf_mutex]. *)
Definition push_audio (gf : cleanstream_data) (audio : obs_audio_data)
    : option cleanstream_data :=
  bufs <- (if channels_fit gf
           then push_channels (buffers gf) (audio_data audio) (audio_frames audio)
           else None) ;;
  let info := mk_info (audio_frames audio) (audio_timestamp audio) in
  Some (mk_data (sample_rate gf) (frames gf) (overlap_frames gf) (overlap_ms gf)
          (last_num_frames gf) bufs
          (circlebuf.push_back (info_buffer gf) [info])
          (info_out_buffer gf) (whisper_context gf) (filler_p_threshold gf)).

Definition pull_channel (nframes : Z) (ch : channel_buffers)
    : option (list sample * channel_buffers) :=
  '(data, rest) <- circlebuf.pop_front sizeof_float (output_buffer ch)
                     (wrap64 (nframes * sizeof_float)) ;;
  Some (data, mk_channel (copy_buffer ch) (input_buffer ch) rest).

(** The block under [whisper_outbuf_mutex]: [None] inside is [return NULL].
    The log line after the pop of the info divides by [gf->sample_rate]. *)
Definition pull_audio (gf : cleanstream_data)
    : option (option (obs_audio_data * cleanstream_data)) :=
  match info_out_buffer gf with
  | [] => Some None
  | info_out :: infos =>
      _ <- (if sample_rate gf =? 0 then None else Some tt) ;;
      pulled <- mapM (pull_channel (info_frames info_out)) (buffers gf) ;;
      Some (Some (mk_audio (map fst pulled) (info_frames info_out)
                    (info_timestamp info_out),
                  mk_data (sample_rate gf) (frames gf) (overlap_frames gf)
                    (overlap_ms gf) (last_num_frames gf) (map snd pulled)
                    (info_buffer gf) infos (whisper_context gf)
                    (filler_p_threshold gf)))
  end.

Inductive filter_result : Type :=
| PassThrough                      (* [return audio] *)
| NoOutput                         (* [return NULL] *)
| Output (out : obs_audio_data).   (* [return &gf->output_audio] *)

Definition cleanstream_filter_audio (gf : cleanstream_data) (audio : obs_audio_data)
    : option (filter_result * cleanstream_data) :=
  if negb (whisper_context gf) then Some (PassThrough, gf)
  else
    gf <- push_audio gf audio ;;
    r <- pull_audio gf ;;
    match r with
    | None => Some (NoOutput, gf)
    | Some (out, gf) => Some (Output out, gf)
    end.
(** ** Configuration: [cleanstream_update] *)

(** [(size_t)(sample_rate / (1000.0f / msec))]. *)
Definition frames_of_msec (sample_rate msec : Z) : Z :=
  f32.to_u64 (f32.div (f32.of_Z sample_rate) (f32.div (f32.of_Z 1000) (f32.of_Z msec))).

(** The host supplies the channel count and the sample rate, the settings
    the threshold; [junk] stands for the contents of fresh memory.  The
    input and output buffers of the channels in use are freed, which more
    channels than the arrays hold do not survive; [last_num_frames] is not
    assigned. *)
Definition cleanstream_update (gf : cleanstream_data) (host_channels host_sample_rate : Z)
    (threshold : f32.t) (junk : sample) : option cleanstream_data :=
  let nframes := frames_of_msec host_sample_rate BUFFER_SIZE_MSEC in
  if host_channels <=? MAX_PREPROC_CHANNELS then
    Some (mk_data host_sample_rate nframes
            (frames_of_msec host_sample_rate OVERLAP_SIZE_MSEC) OVERLAP_SIZE_MSEC
            (last_num_frames gf)
            (repeat (mk_channel (repeat junk (Z.to_nat nframes)) [] [])
               (Z.to_nat host_channels))
            (info_buffer gf) (info_out_buffer gf) (whisper_context gf) threshold)
  else None.
End Pipeline.

(** ** Signal gate

    The gate is written once over the arithmetic of its samples, so that it
    can be read both with the source's binary32 arithmetic and with exact
    rational arithmetic. *)

Class Arith (F : Type) : Type := {
  a_zero : F;
  a_add : F -> F -> F;
  a_sub : F -> F -> F;
  a_mul : F -> F -> F;
  a_div : F -> F -> F;
  a_abs : F -> F;
  a_ltb : F -> F -> bool;
  (** conversion of an unsigned integer *)
  a_of_Z : Z -> F;
  (** [1.0f / (2.0f * M_PI * cutoff)], evaluated in [double] and stored in a
      [float] *)
  a_rc : F -> F
}.

#[export] Instance f32_arith : Arith f32.t := {
  a_zero := f32.zero;
  a_add := f32.add;
  a_sub := f32.sub;
  a_mul := f32.mul;
  a_div := f32.div;
  a_abs := f32.abs;
  a_ltb := f32.ltb;
  a_of_Z := f32.of_Z;
  a_rc cutoff :=
    f64.to_f32
      (f64.div (f64.of_f32 (f32.of_Z 1))
         (f64.mul (f64.mul (f64.of_f32 (f32.of_Z 2)) f64.M_PI) (f64.of_f32 cutoff)))
}.

(** The rational number that [M_PI] denotes. *)
Definition M_PI_Q : Q := Qmake 7074237752028440 (2 ^ 51).

#[export] Instance Q_arith : Arith Q := {
  a_zero := 0%Q;
  a_add := Qplus;
  a_sub := Qminus;
  a_mul := Qmult;
  a_div := Qdiv;
  a_abs := Qabs;
  a_ltb x y := negb (Qle_bool y x);
  a_of_Z := inject_Z;
  a_rc cutoff := Qdiv 1 (Qmult (Qmult 2 M_PI_Q) cutoff)
}.

Section SignalGate.
Context {F : Type} `{Arith F}.

(** [std::max(a, b)], that is [(a < b) ? b : a]. *)
Definition a_max (a b : F) : F := if a_ltb a b then b else a.

Definition hpf_alpha (cutoff : F) (sample_rate : Z) : F :=
  let rc := a_rc cutoff in
  let dt := a_div (a_of_Z 1) (a_of_Z sample_rate) in
  a_div dt (a_add rc dt).

(** The loop of [high_pass_filter] from index [i] on.  [prev] is what
    [pcmf32[i - 1]] holds when iteration [i] reads it: the array is
    filtered in place, so it is the output stored one iteration before. *)
Fixpoint hpf_loop (alpha y prev : F) (rest : list F) : list F :=
  match rest with
  | [] => []
  | x :: rest' =>
      let y := a_mul alpha (a_sub (a_add y x) prev) in
      y :: hpf_loop alpha y y rest'
  end.

(** [high_pass_filter], returning the array it leaves behind; it reads
    [pcmf32[0]] whatever [pcm32f_size] is. *)
Definition high_pass_filter (pcmf32 : list F) (cutoff : F) (sample_rate : Z)
    : option (list F) :=
  match pcmf32 with
  | [] => None
  | x0 :: rest => Some (x0 :: hpf_loop (hpf_alpha cutoff sample_rate) x0 x0 rest)
  end.

(** [energy += fabsf(pcmf32[i])] over a whole list, in index order. *)
Definition sum_abs (l : list F) : F :=
  fold_left (fun energy x => a_add energy (a_abs x)) l a_zero.

(** The mean absolute amplitude that [vad_simple] compares. *)
Definition mean_abs (l : list F) : F :=
  a_div (sum_abs l) (a_of_Z (Z.of_nat (length l))).

(** [vad_simple]: true if speech is detected. *)
Definition vad_simple (pcmf32 : list F) (sample_rate : Z) (vad_thold freq_thold : F)
    : option bool :=
  filtered <- (if a_ltb a_zero freq_thold
               then high_pass_filter pcmf32 freq_thold sample_rate
               else Some pcmf32) ;;
  let energy_all := mean_abs filtered in
  if a_ltb energy_all vad_thold then Some false else Some true.

Definition avg_energy_in_window (pcmf32 : list F) (window_i n_samples_window : Z)
    : option F :=
  w <- read_range pcmf32 window_i n_samples_window ;;
  Some (a_div (sum_abs w) (a_of_Z n_samples_window)).

Definition max_energy_in_window (pcmf32 : list F) (window_i n_samples_window : Z)
    : option F :=
  w <- read_range pcmf32 window_i n_samples_window ;;
  Some (fold_left (fun energy x => a_max energy (a_abs x)) w a_zero).

(** The loop that logs the average energy of every window; only its reads
    matter.  [fuel] bounds the iterations: the loop does not end when
    [n_samples_window] is 0. *)
Fixpoint log_windows (fuel : nat) (pcmf32 : list F) (i bound n_samples_window : Z)
    : option unit :=
  if i <? bound then
    match fuel with
    | O => None
    | S fuel' =>
        _ <- avg_energy_in_window pcmf32 i n_samples_window ;;
        log_windows fuel' pcmf32 (wrap64 (i + n_samples_window)) bound n_samples_window
    end
  else Some tt.

(** [word_boundary_simple]; the array is [pcmf32], [pcm32f_size] comes with it. *)
Definition word_boundary_simple (pcmf32 : list F) (pcm32f_size sample_rate : Z) (thold : F)
    : option Z :=
  let n_samples_window := wrap32 (sample_rate * 50) / 1000 in
  first_window_energy <- avg_energy_in_window pcmf32 0 n_samples_window ;;
  last_window_energy <- avg_energy_in_window pcmf32
                          (wrap64 (pcm32f_size - n_samples_window)) n_samples_window ;;
  max_energy_in_middle <- max_energy_in_window pcmf32 n_samples_window
                            (wrap64 (pcm32f_size - n_samples_window)) ;;
  _ <- log_windows (Z.to_nat pcm32f_size) pcmf32 0
         (wrap64 (pcm32f_size - n_samples_window)) n_samples_window ;;
  let max_energy_thold := a_mul max_energy_in_middle thold in
  if a_ltb first_window_energy max_energy_thold
     && a_ltb last_window_energy max_energy_thold
  then Some n_samples_window
  else Some 0.
End SignalGate.

(** ** Inference invoker: the classification in [run_whisper_inference] *)

Local Open Scope string_scope.

(** [::tolower] in the "C" locale. *)
Definition tolower (c : ascii) : ascii :=
  let n := N_of_ascii c in
  if ((65 <=? n) && (n <=? 90))%N then ascii_of_N (n + 32) else c.

Fixpoint to_lower (s : string) : string :=
  match s with
  | EmptyString => EmptyString
  | String c s' => String (tolower c) (to_lower s')
  end.

(** [std::string::find]: the position of the first occurrence, [None] for
    [npos]. *)
Fixpoint find (s pat : string) : option nat :=
  if String.prefix pat s then Some O
  else match s with
       | EmptyString => None
       | String _ s' => option_map S (find s' pat)
       end.

Definition found (s pat : string) : bool :=
  match find s pat with Some _ => true | None => false end.

(** The marker of a blank segment and the disfluency patterns. *)
Definition blank_marker : string := "[bl".
Definition disfluencies : list string :=
  ["uh,"; "um,"; "um."; "ah."; "ah,"; "eh."; "eh,"; "uh."].

(** [sentence_p]: the sum of the token probabilities over their number. *)
Definition sentence_p (token_p : list f32.t) : f32.t :=
  f32.div (fold_left f32.add token_p f32.zero)
    (f32.of_Z (Z.of_nat (List.length token_p))).

(** The condition of the final [if]. *)
Definition is_filler (text : string) (p threshold : f32.t) : bool :=
  let text_lower := to_lower text in
  (found text_lower blank_marker && f32.ltb threshold p)
  || found text_lower "uh,"
  || found text_lower "um,"
  || found text_lower "um."
  || found text_lower "ah."
  || found text_lower "ah,"
  || found text_lower "eh."
  || found text_lower "eh,"
  || found text_lower "uh.".

(** [run_whisper_inference].  [context] tells whether [gf->whisper_context]
    is set, [whisper_full_result] is what the engine returned (an exception
    leaves it at -1), [text] and [token_p] are the first segment's transcript
    and token probabilities. *)
Definition run_whisper_inference (context : bool) (whisper_full_result : Z)
    (text : string) (token_p : list f32.t) (threshold : f32.t) : bool :=
  if negb context then false
  else if negb (whisper_full_result =? 0)%Z then false
  else is_filler text (sentence_p token_p) threshold.

Local Close Scope string_scope.

Arguments mk_channel {sample}.
Arguments mk_data {sample}.
Arguments mk_audio {sample}.
Arguments copy_buffer {sample}.
Arguments input_buffer {sample}.
Arguments output_buffer {sample}.
Arguments sample_rate {sample}.
Arguments frames {sample}.
Arguments overlap_frames {sample}.
Arguments overlap_ms {sample}.
Arguments last_num_frames {sample}.
Arguments buffers {sample}.
Arguments info_buffer {sample}.
Arguments info_out_buffer {sample}.
Arguments whisper_context {sample}.
Arguments filler_p_threshold {sample}.
Arguments channels {sample}.
Arguments audio_data {sample}.
Arguments audio_frames {sample}.
Arguments audio_timestamp {sample}.
Arguments channels_fit {sample}.
Arguments memcpy_within {sample}.
Arguments log_processing {sample}.
Arguments pop_input {sample}.
Arguments assemble {sample}.
Arguments publish_channel {sample}.
Arguments publish {sample}.
Arguments adapt {sample}.
Arguments process_audio_from_buffer {sample}.
Arguments enough_input {sample}.
Arguments push_channels {sample}.
Arguments push_audio {sample}.
Arguments pull_channel {sample}.
Arguments pull_audio {sample}.
Arguments cleanstream_filter_audio {sample}.
Arguments cleanstream_update {sample}.
Arguments PassThrough {sample}.
Arguments NoOutput {sample}.
Arguments Output {sample}.

(** ** The worker's cycle with its signal gate *)

(** What [whisper_full] does with a window: it throws, or it returns a
    code and leaves the first segment's transcript and token
    probabilities. *)
Inductive whisper_full_outcome : Type :=
| Throws
| Returns (whisper_full_result : Z) (text : string) (token_p : list f32.t).

(** [run_whisper_inference] with the engine's outcome in place of the call
    of [whisper_full]: the verdict, and whether [gf->whisper_context] is
    still set.  The [catch] block frees the context and clears the field;
    the function then warns and returns false. *)
Definition run_whisper_inference_on (context : bool) (engine : whisper_full_outcome)
    (threshold : f32.t) : bool * bool :=
  if negb context then (false, false)
  else match engine with
       | Throws => (false, false)
       | Returns whisper_full_result text token_p =>
           (run_whisper_inference context whisper_full_result text token_p threshold,
            true)
       end.

(** What the middle of [process_audio_from_buffer] decides. *)
Record gate_verdict : Type := mk_verdict {
  filler_segment : bool;
  skipped_inference : bool;
  context_left : bool
}.

(** The signal gate on the resampled window [output0], whose length is
    [out_frames]: [vad_simple], which filters the window in place, then
    [word_boundary_simple] on the filtered window, then the inference. *)
Definition signal_gate (context : bool) (threshold : f32.t) (output0 : list f32.t)
    (engine : whisper_full_outcome) : option gate_verdict :=
  let out_frames := Z.of_nat (length output0) in
  speech <- vad_simple output0 WHISPER_SAMPLE_RATE VAD_THOLD FREQ_THOLD ;;
  if speech then
    filtered <- high_pass_filter output0 FREQ_THOLD WHISPER_SAMPLE_RATE ;;
    word_boundary <- word_boundary_simple filtered out_frames WHISPER_SAMPLE_RATE
                       (f32.lit 1 4) ;;
    if 0 <? word_boundary then
      let '(filler, context) := run_whisper_inference_on context engine threshold in
      Some (mk_verdict filler false context)
    else Some (mk_verdict false false context)
  else Some (mk_verdict false true context).

Definition set_whisper_context {sample : Type} (gf : cleanstream_data sample)
    (context : bool) : cleanstream_data sample :=
  mk_data (sample_rate gf) (frames gf) (overlap_frames gf) (overlap_ms gf)
    (last_num_frames gf) (buffers gf) (info_buffer gf) (info_out_buffer gf)
    context (filler_p_threshold gf).

(** [process_audio_from_buffer] as a whole.  [resample] stands for
    [audio_resampler_resample] on the analysis buffers and the valid
    length, and gives the mono window at 16 kHz, [output[0]] with its
    [out_frames] samples; the call is taken to succeed, as the code does
    not test its result.  [engine] is what [whisper_full] does if it is
    called; [duration] is the measured time in ms. *)
Definition process_audio_from_buffer_gated {sample : Type}
    (resample : list (list sample) -> Z -> list f32.t) (engine : whisper_full_outcome)
    (gf : cleanstream_data sample) (duration : Z) : option (cleanstream_data sample) :=
  '(gf, num_new, start_timestamp) <- assemble gf ;;
  _ <- log_processing gf ;;
  let output0 := resample (map copy_buffer (buffers gf)) (wrap32 (last_num_frames gf)) in
  verdict <- signal_gate (whisper_context gf) (filler_p_threshold gf) output0 engine ;;
  let gf := set_whisper_context gf (context_left verdict) in
  gf <- publish gf num_new start_timestamp ;;
  Some (adapt gf num_new duration (skipped_inference verdict)).

(** ** Runs of the pipeline and the predicates the properties speak of *)

(** The frames that the queued packet infos announce. *)
Definition queued_frames (q : list cleanstream_audio_info) : Z :=
  fold_right (fun i total => info_frames i + total) 0 q.

Section Runs.
Context {sample : Type}.

(** What the two threads do to the state: the host delivers a packet, or
    the worker polls and processes a window when enough input is queued.
    The worker's outcome is tagged with the gate's verdict and the
    measured duration ([Window]), or the gate runs on what the resampler
    returns ([Cycle]). *)
Inductive event : Type :=
| Packet (audio : obs_audio_data sample)
| Window (skipped_inference : bool) (duration : Z)
| Cycle (resample : list (list sample) -> Z -> list f32.t)
    (engine : whisper_full_outcome) (duration : Z).

Definition step (gf : cleanstream_data sample) (ev : event)
    : option (cleanstream_data sample) :=
  match ev with
  | Packet audio => option_map snd (cleanstream_filter_audio gf audio)
  | Window skipped_inference duration =>
      if enough_input gf
      then process_audio_from_buffer gf skipped_inference duration
      else Some gf
  | Cycle resample engine duration =>
      if enough_input gf
      then process_audio_from_buffer_gated resample engine gf duration
      else Some gf
  end.

(** Every channel's input buffer holds, in bytes, the queued frames less
    [deficit] frames. *)
Definition consistent (deficit : Z) (gf : cleanstream_data sample) : Prop :=
  Forall (fun ch => (queued_frames (info_buffer gf) - deficit) * sizeof_float
                    = circlebuf.size sizeof_float (input_buffer ch))
    (buffers gf).

Definition equal_channel_sizes (gf : cleanstream_data sample) : Prop :=
  forall ch1 ch2, In ch1 (buffers gf) -> In ch2 (buffers gf) ->
    circlebuf.size sizeof_float (input_buffer ch1)
    = circlebuf.size sizeof_float (input_buffer ch2).

(** The samples that the first window takes beyond those its infos announce. *)
Definition first_window_extra (gf : cleanstream_data sample) (ev : event) : Z :=
  match ev with
  | Packet _ => 0
  | Window _ _ | Cycle _ _ _ =>
      if enough_input gf && negb (0 <? last_num_frames gf)
      then overlap_frames gf else 0
  end.

(** The sizes a state and an event must respect for the integer
    arithmetic of a step not to wrap. *)
Definition in_range (gf : cleanstream_data sample) (ev : event) : Prop :=
  Forall (fun i => 0 <= info_frames i) (info_buffer gf)
  /\ queued_frames (info_buffer gf) < 2 ^ 32
  /\ 0 <= overlap_frames gf < 2 ^ 32
  /\ match ev with
     | Packet audio => 0 <= audio_frames audio
     | Window _ _ | Cycle _ _ _ => True
     end.
End Runs.


(** A window with every sample multiplied by [c]. *)
Definition scale_window {F : Type} `{Arith F} (c : F) (pcmf32 : list F) : list F :=
  map (a_mul c) pcmf32.

(** [pat] occurs in [s]. *)
Definition contains (s pat : string) : Prop :=
  exists pre post, s = (pre ++ pat ++ post)%string.

(** A run of events, stopping at the first failure. *)
Fixpoint run {sample : Type} (gf : cleanstream_data sample) (evs : list event)
    : option (cleanstream_data sample) :=
  match evs with
  | [] => Some gf
  | ev :: evs' => gf' <- step gf ev ;; run gf' evs'
  end.

(** Every step of a run keeps within the ranges of [in_range]. *)
Fixpoint run_in_range {sample : Type} (gf : cleanstream_data sample)
    (evs : list event) : Prop :=
  match evs with
  | [] => True
  | ev :: evs' =>
      in_range gf ev
      /\ match step gf ev with
         | Some gf' => run_in_range gf' evs'
         | None => True
         end
  end.

(** The samples that the first windows of a run take beyond those their
    infos announce. *)
Fixpoint run_extra {sample : Type} (gf : cleanstream_data sample)
    (evs : list event) : Z :=
  match evs with
  | [] => 0
  | ev :: evs' =>
      first_window_extra gf ev
      + match step gf ev with
        | Some gf' => run_extra gf' evs'
        | None => 0
        end
  end.

(** A cycle publishes, for every channel, the samples of the new analysis
    window from index [off] on, as many as the drain took from the infos,
    together with one info made of that count and of the start timestamp. *)
Definition publishes_from {sample : Type} (off : Z) (gf gf' : cleanstream_data sample)
    : Prop :=
  exists num_new start_timestamp q,
    drain_infos (wrap64 (frames gf - overlap_frames gf)) (info_buffer gf) 0 0
    = (num_new, start_timestamp, q)
    /\ info_out_buffer gf'
       = info_out_buffer gf ++ [mk_info num_new start_timestamp]
    /\ Forall2 (fun ch ch' =>
                  exists data,
                    read_range (copy_buffer ch') off num_new = Some data
                    /\ output_buffer ch' = output_buffer ch ++ data)
         (buffers gf) (buffers gf').

(** Two states used as examples, with one channel of integer samples, a
    window of 10 frames and an overlap of 4: before the first window, fed
    by seven packets of two frames, and after it. *)
Definition first_window_state : cleanstream_data Z :=
  mk_data 1000 10 4 4 0
    [mk_channel (repeat 0 10) [1; 2; 3; 4; 5; 6; 7; 8; 9; 10; 11; 12; 13; 14] []]
    (map (fun k => mk_info 2 (100 + k)) [0; 1; 2; 3; 4; 5; 6])
    [] true (f32.lit 3 4).

Definition second_window_state : cleanstream_data Z :=
  mk_data 1000 10 4 4 8
    [mk_channel [1; 2; 3; 4; 5; 6; 7; 8; 0; 0] [9; 10; 11; 12; 13; 14] [1; 2; 3; 4]]
    (map (fun k => mk_info 2 (100 + k)) [3; 4; 5; 6; 2])
    [mk_info 4 100] true (f32.lit 3 4).

(** A new filter on a mono host at 16 kHz: [cleanstream_update] on a
    struct with empty queues and a loaded context.  The struct comes from
    [bmalloc] and the code assigns [last_num_frames] in the first cycle
    only, so what the field holds before is given: [fresh_last_num_frames]. *)
Definition configured (fresh_last_num_frames : Z) : option (cleanstream_data f32.t) :=
  cleanstream_update
    (mk_data 0 0 0 0 fresh_last_num_frames [] [] [] true f32.zero)
    1 WHISPER_SAMPLE_RATE (f32.lit 3 4) f32.zero.

(** A mono packet of [n] frames that all hold the sample 0.5: a steady
    level, loud enough for the gate to hear speech, with no word boundary. *)
Definition packet_of (n timestamp : Z) : obs_audio_data f32.t :=
  mk_audio [repeat (f32.lit 1 2) (Z.to_nat n)] n timestamp.

(** The resampler of a mono host at 16 kHz: the window goes through as it
    is. *)
Definition resample_mono_16k (copy_buffers : list (list f32.t)) (num_frames : Z)
    : list f32.t :=
  firstn (Z.to_nat num_frames) (hd [] copy_buffers).

(** A window of three 50 ms sub-windows at 16 kHz, silent but for its
    very last sample. *)
Definition late_peak_window : list f32.t :=
  repeat f32.zero 2399 ++ [f32.of_Z 1].

(** [p] holds of the [n] integers from [k] on; used to settle by
    computation what is stated for a finite range only. *)
Fixpoint all_from (n : nat) (p : Z -> bool) (k : Z) : bool :=
  match n with
  | O => true
  | S n' => p k && all_from n' p (k + 1)
  end.

(** ** Further parts of the source and the predicates of their properties *)

(** [enum speaker_layout] of libobs, as far as the source names it. *)
Inductive speaker_layout : Type :=
| SPEAKERS_UNKNOWN
| SPEAKERS_MONO
| SPEAKERS_STEREO
| SPEAKERS_2POINT1
| SPEAKERS_4POINT0
| SPEAKERS_4POINT1
| SPEAKERS_5POINT1
| SPEAKERS_7POINT1.

(** [convert_speaker_layout]; its argument is a [uint8_t]. *)
Definition convert_speaker_layout (channels : Z) : speaker_layout :=
  match channels with
  | 0 => SPEAKERS_UNKNOWN
  | 1 => SPEAKERS_MONO
  | 2 => SPEAKERS_STEREO
  | 3 => SPEAKERS_2POINT1
  | 4 => SPEAKERS_4POINT0
  | 5 => SPEAKERS_4POINT1
  | 6 => SPEAKERS_5POINT1
  | 8 => SPEAKERS_7POINT1
  | _ => SPEAKERS_UNKNOWN
  end.

(** The cast [(int)] of an [int64_t]. *)
Definition wrap_int (z : Z) : Z := (z + 2 ^ 31) mod 2 ^ 32 - 2 ^ 31.

(** [printf]'s ["%0<width>d"]: the sign, then zeros up to [width]
    characters, then the decimal digits. *)
Definition format_d (width : nat) (z : Z) : string :=
  let digits := NilZero.string_of_uint (N.to_uint (Z.to_N (Z.abs z))) in
  let sign := if z <? 0 then "-"%string else ""%string in
  (sign
   ++ string_of_list_ascii
        (repeat "0"%char (width - String.length sign - String.length digits))
   ++ digits)%string.

(** [to_timestamp]: [snprintf] into 32 bytes keeps at most 31 characters.
    The division of [int64_t] truncates towards zero. *)
Definition to_timestamp (t : Z) : string :=
  let sec := Z.quot t 100 in
  let msec := t - sec * 100 in
  let min := Z.quot sec 60 in
  let sec := sec - min * 60 in
  substring 0 31
    (format_d 2 (wrap_int min) ++ ":" ++ format_d 2 (wrap_int sec) ++ "."
     ++ format_d 3 (wrap_int msec))%string.

(** The decimal digit [d]. *)
Definition digit (d : Z) : ascii := ascii_of_N (48 + Z.to_N d).

(** The part of a channel's analysis window that the next window starts
    with: its last [overlap_frames] valid samples, nothing before the first
    window. *)
Definition lookahead {sample : Type} (gf : cleanstream_data sample)
    (ch : channel_buffers sample) : option (list sample) :=
  if 0 <? last_num_frames gf
  then read_range (copy_buffer ch)
         (last_num_frames gf - overlap_frames gf) (overlap_frames gf)
  else Some [].

(** A state on which the segment assembler can run: the overlap is shorter
    than the window, the analysis buffers have the window's capacity, and
    the valid length of the previous window lies between the overlap and
    the capacity. *)
Definition ready {sample : Type} (gf : cleanstream_data sample) : Prop :=
  0 <= overlap_frames gf < frames gf
  /\ frames gf < 2 ^ 32
  /\ (last_num_frames gf = 0
      \/ overlap_frames gf <= last_num_frames gf <= frames gf)
  /\ Forall (fun ch => Z.of_nat (length (copy_buffer ch)) = frames gf) (buffers gf).

(** The overlap that a cycle moves to the front of the window lies clear
    of the place it is moved to: the two ranges of the [memcpy] are apart. *)
Definition disjoint_overlap {sample : Type} (gf : cleanstream_data sample) : Prop :=
  last_num_frames gf = 0 \/ 2 * overlap_frames gf <= last_num_frames gf.

(** [out_frames] in a cycle from [gf]: the length of the window that the
    resampler returns for what the cycle assembles, 0 if the assembly
    fails. *)
Definition out_frames {sample : Type} (resample : list (list sample) -> Z -> list f32.t)
    (gf : cleanstream_data sample) : Z :=
  match assemble gf with
  | Some (gf1, _, _) =>
      Z.of_nat (length (resample (map copy_buffer (buffers gf1))
                          (wrap32 (last_num_frames gf1))))
  | None => 0
  end.

(** A new filter on a mono host at 16 kHz that has received packets of
    160, 16000 and 1000 frames of steady speech and has processed no
    window. *)
Definition fed_state : cleanstream_data f32.t :=
  mk_data 16000 16160 5440 340 0
    [mk_channel (repeat f32.zero (Z.to_nat 16160))
       (repeat (f32.lit 1 2) (Z.to_nat 17160)) []]
    [mk_info 160 1; mk_info 16000 2; mk_info 1000 3] [] true (f32.lit 3 4).

(** The same filter after packets of 8000 and 16000 frames: its first
    window takes 500 ms of new audio. *)
Definition long_packet_state : cleanstream_data f32.t :=
  mk_data 16000 16160 5440 340 0
    [mk_channel (repeat f32.zero (Z.to_nat 16160))
       (repeat (f32.lit 1 2) (Z.to_nat 24000)) []]
    [mk_info 8000 1; mk_info 16000 2] [] true (f32.lit 3 4).

(** [fed_state] with a word in its first window: 50 ms of silence, 250 ms
    of steady speech, then silence. *)
Definition word_state : cleanstream_data f32.t :=
  mk_data 16000 16160 5440 340 0
    [mk_channel (repeat f32.zero (Z.to_nat 16160))
       (repeat f32.zero (Z.to_nat 800) ++ repeat (f32.lit 1 2) (Z.to_nat 4000)
        ++ repeat f32.zero (Z.to_nat 12360)) []]
    [mk_info 160 1; mk_info 16000 2; mk_info 1000 3] [] true (f32.lit 3 4).

(** The output side of the queue discipline: every channel's output buffer
    holds, in bytes, the frames that the queued output infos announce. *)
Definition out_consistent {sample : Type} (gf : cleanstream_data sample) : Prop :=
  Forall (fun i => 0 <= info_frames i < 2 ^ 32) (info_out_buffer gf)
  /\ Forall (fun ch => queued_frames (info_out_buffer gf) * sizeof_float
                       = circlebuf.size sizeof_float (output_buffer ch))
       (buffers gf).

(** A packet that brings, for every channel of the filter, the frames it
    announces. *)
Definition well_formed_packet {sample : Type} (gf : cleanstream_data sample)
    (audio : obs_audio_data sample) : Prop :=
  0 <= audio_frames audio
  /\ (length (buffers gf) <= length (audio_data audio))%nat
  /\ Forall (fun d => audio_frames audio <= Z.of_nat (length d)) (audio_data audio).

(** The two decimal digits of a number below 100. *)
Definition two_digits (v : Z) : string :=
  String (digit (v / 10)) (String (digit (v mod 10)) EmptyString).

(** The channel count that a layout stands for, 0 for the unknown one. *)
Definition layout_channels (l : speaker_layout) : Z :=
  match l with
  | SPEAKERS_UNKNOWN => 0
  | SPEAKERS_MONO => 1
  | SPEAKERS_STEREO => 2
  | SPEAKERS_2POINT1 => 3
  | SPEAKERS_4POINT0 => 4
  | SPEAKERS_4POINT1 => 5
  | SPEAKERS_5POINT1 => 6
  | SPEAKERS_7POINT1 => 8
  end.

(** * Properties *)

(** ** Machine integers and lists *)

Lemma wrap32_range z : 0 <= wrap32 z < 2 ^ 32.
Proof. unfold wrap32. apply Z.mod_pos_bound. lia. Qed.

Lemma wrap32_small z : 0 <= z < 2 ^ 32 -> wrap32 z = z.
Proof. intros Hz. unfold wrap32. now apply Z.mod_small. Qed.

Lemma wrap64_small z : 0 <= z < 2 ^ 64 -> wrap64 z = z.
Proof. intros Hz. unfold wrap64. now apply Z.mod_small. Qed.

Lemma wrap32_add_sub a f : wrap32 (wrap32 (a + f) - f) = wrap32 a.
Proof.
  unfold wrap32.
  rewrite Zminus_mod_idemp_l. f_equal. lia.
Qed.

Lemma obind_some {A B : Type} (m : option A) (k : A -> option B) (b : B) :
  obind m k = Some b -> exists a, m = Some a /\ k a = Some b.
Proof. destruct m as [a|]; simpl; [eauto | discriminate]. Qed.

Lemma mapM_Forall2 {A B : Type} (f : A -> option B) (l : list A) (l' : list B) :
  mapM f l = Some l' -> Forall2 (fun a b => f a = Some b) l l'.
Proof.
  revert l'. induction l as [|a l IH]; simpl; intros l' Hm.
  - injection Hm as <-. constructor.
  - apply obind_some in Hm as (b & Hb & Hm).
    apply obind_some in Hm as (bs & Hbs & Hm).
    injection Hm as <-. constructor; auto.
Qed.

(** ** The drain of the packet infos *)

(** The loop never leaves with the target reached: the info that reaches
    it is put back and its frames are taken off again. *)
Lemma drain_infos_below_target target q :
  forall acc ts num_new ts' q',
    0 <= acc < 2 ^ 32 -> acc < target ->
    drain_infos target q acc ts = (num_new, ts', q') ->
    0 <= num_new < 2 ^ 32 /\ num_new < target.
Proof.
  induction q as [|i rest IH]; simpl; intros acc ts n ts' q' Hacc Hlt Hd.
  - injection Hd as <- _ _. lia.
  - destruct (Z.geb_spec (wrap32 (acc + info_frames i)) target) as [Hge|Hlt'].
    + injection Hd as <- _ _.
      rewrite wrap32_add_sub, (wrap32_small acc) by lia. lia.
    + apply (IH _ _ _ _ _ (wrap32_range _) Hlt') in Hd. exact Hd.
Qed.

(** The info on which the loop stops goes behind everything still queued. *)
Lemma drain_infos_push_back target i rest acc ts :
  wrap32 (acc + info_frames i) >= target ->
  snd (drain_infos target (i :: rest) acc ts) = rest ++ [i].
Proof.
  intros Hge. simpl.
  destruct (Z.geb_spec (wrap32 (acc + info_frames i)) target); [reflexivity | lia].
Qed.

(** With a first timestamp other than 0 the window starts at it. *)
Lemma drain_infos_start_nonzero target q :
  forall acc ts, ts <> 0 -> snd (fst (drain_infos target q acc ts)) = ts.
Proof.
  induction q as [|i rest IH]; simpl; intros acc ts Hts; [reflexivity|].
  destruct (Z.eqb_spec ts 0) as [|_]; [contradiction|].
  destruct (_ >=? _); [reflexivity | now apply IH].
Qed.

(** So a first info with a timestamp other than 0 gives the window its
    start timestamp. *)
Lemma drain_infos_start_first target i rest :
  info_timestamp i <> 0 ->
  snd (fst (drain_infos target (i :: rest) 0 0)) = info_timestamp i.
Proof.
  intros Hts. cbn [drain_infos]. rewrite Z.eqb_refl.
  destruct (_ >=? _); [reflexivity | now apply drain_infos_start_nonzero].
Qed.

Lemma queued_frames_app q1 q2 :
  queued_frames (q1 ++ q2) = queued_frames q1 + queued_frames q2.
Proof. induction q1 as [|i q1 IH]; simpl; lia. Qed.

Lemma queued_frames_nonneg q :
  Forall (fun i => 0 <= info_frames i) q -> 0 <= queued_frames q.
Proof. induction 1; simpl; lia. Qed.

(** No frame is lost or counted twice by the drain. *)
Lemma drain_infos_frames target q :
  forall acc ts num_new ts' q',
    Forall (fun i => 0 <= info_frames i) q ->
    0 <= acc -> acc + queued_frames q < 2 ^ 32 ->
    drain_infos target q acc ts = (num_new, ts', q') ->
    num_new + queued_frames q' = acc + queued_frames q
    /\ Forall (fun i => 0 <= info_frames i) q' /\ 0 <= num_new.
Proof.
  induction q as [|i rest IH]; simpl; intros acc ts n ts' q' Hpos Hacc Hsum Hd.
  - injection Hd as <- _ <-. simpl. repeat split; auto; lia.
  - inversion Hpos as [|? ? Hi Hrest]; subst.
    pose proof (queued_frames_nonneg _ Hrest) as Hq.
    destruct (wrap32 (acc + info_frames i) >=? target).
    + injection Hd as <- _ <-.
      rewrite wrap32_add_sub, (wrap32_small acc) by lia.
      unfold circlebuf.push_back. rewrite queued_frames_app. simpl.
      split; [lia | split; [|lia]].
      apply Forall_app. split; [assumption | constructor; auto].
    + rewrite wrap32_small in Hd by lia.
      apply IH in Hd; try assumption; try lia.
      destruct Hd as (Hd & Hf & Hn). repeat split; auto; lia.
Qed.

(** ** Claims on the drain *)

(** C3 (the code departs from the claim).  A drain over five packets of
    4000 frames with the target 16160 - 5440 = 10720 takes the first two,
    stops on the third and appends it behind the fourth and the fifth: the
    next cycle pops the fourth packet first and starts its window at that
    packet's timestamp, so the order of arrival is not kept. *)
Theorem push_back_reorders_infos :
  let p k := mk_info 4000 (1000 + k) in
  drain_infos 10720 [p 1; p 2; p 3; p 4; p 5] 0 0 = (8000, 1001, [p 4; p 5; p 3])
  /\ hd_error (snd (drain_infos 10720 [p 1; p 2; p 3; p 4; p 5] 0 0)) = Some (p 4)
  /\ snd (fst (drain_infos 10720 [p 4; p 5; p 3] 0 0)) = 1004.
Proof. vm_compute. auto. Qed.

(** C9 (the code departs from the claim).  When the first info popped
    carries the timestamp 0, the window's start timestamp is the one of the
    next info popped, here 5. *)
Theorem start_timestamp_skips_zero :
  drain_infos 25 [mk_info 10 0; mk_info 10 5; mk_info 10 7] 0 0
  = (20, 5, [mk_info 10 7]).
Proof. vm_compute. reflexivity. Qed.




(** ** One cycle of the worker, block by block *)

Lemma Forall2_transfer {A B : Type} (R : A -> B -> Prop) (P : A -> Prop)
    (Q : B -> Prop) (l : list A) (l' : list B) :
  Forall2 R l l' -> Forall P l -> (forall a b, R a b -> P a -> Q b) -> Forall Q l'.
Proof.
  induction 1 as [|a b l l' Hab _ IH]; intros HP HPQ; [constructor|].
  inversion HP; subst. constructor; eauto.
Qed.

Lemma Forall2_compose {A B C : Type} (R : A -> B -> Prop) (S : B -> C -> Prop)
    (l1 : list A) (l2 : list B) (l3 : list C) :
  Forall2 R l1 l2 -> Forall2 S l2 l3 ->
  Forall2 (fun a c => exists b, R a b /\ S b c) l1 l3.
Proof.
  intros H12. revert l3. induction H12 as [|a b l1 l2 Hab _ IH]; intros l3 H23.
  - inversion H23. constructor.
  - inversion H23; subst. constructor; eauto.
Qed.

Lemma read_range_length {A : Type} (buf : list A) (off n : Z) (data : list A) :
  read_range buf off n = Some data -> Z.of_nat (length data) = n.
Proof.
  unfold read_range. intros Hr.
  destruct (0 <=? off) eqn:Ho; [|discriminate].
  destruct (0 <=? n) eqn:Hn; [|discriminate].
  destruct (off + n <=? Z.of_nat (length buf)) eqn:Hb; [|discriminate].
  simpl in Hr. injection Hr as <-.
  rewrite length_firstn, length_skipn. lia.
Qed.

Lemma pop_front_length {A : Type} (cb data rest : list A) (k : Z) :
  0 <= k ->
  circlebuf.pop_front sizeof_float cb (k * sizeof_float) = Some (data, rest) ->
  Z.of_nat (length rest) = Z.of_nat (length cb) - k
  /\ data = firstn (Z.to_nat k) cb /\ Z.of_nat (length data) = k.
Proof.
  unfold circlebuf.pop_front, circlebuf.size, sizeof_float. intros Hk Hp.
  destruct (k * 4 <=? 4 * Z.of_nat (length cb)) eqn:Hle; [|discriminate].
  rewrite Z.div_mul in Hp by lia. injection Hp as <- <-.
  rewrite length_skipn, length_firstn. repeat split; lia.
Qed.

Section Cycle.
Context {sample : Type}.
Implicit Types gf : cleanstream_data sample.

(** What a successful cycle computed, block by block. *)
Lemma process_audio_from_buffer_inv gf skipped duration gf' :
  process_audio_from_buffer gf skipped duration = Some gf' ->
  exists num_new start_timestamp q bufs,
    drain_infos (wrap64 (frames gf - overlap_frames gf)) (info_buffer gf) 0 0
    = (num_new, start_timestamp, q)
    /\ Forall2 (fun ch ch1 => pop_input gf num_new ch = Some ch1) (buffers gf) bufs
    /\ Forall2 (fun ch1 ch' => publish_channel num_new ch1 = Some ch') bufs (buffers gf')
    /\ info_buffer gf' = q
    /\ info_out_buffer gf'
       = info_out_buffer gf ++ [mk_info num_new start_timestamp]
    /\ last_num_frames gf' = wrap64 (num_new + overlap_frames gf)
    /\ frames gf' = frames gf.
Proof.
  unfold process_audio_from_buffer, assemble. intros Hp.
  destruct (drain_infos _ (info_buffer gf) 0 0) as [[n ts] q] eqn:Hd.
  apply obind_some in Hp as (((gf1 & n1) & ts1) & Ha & Hp).
  apply obind_some in Ha as (bufs & Hpop & Ha).
  destruct (channels_fit gf); [|discriminate].
  injection Ha as <- <- <-.
  apply obind_some in Hp as (_ & _ & Hp).
  apply obind_some in Hp as (gf2 & Hpub & Hp).
  unfold publish in Hpub. simpl in Hpub.
  apply obind_some in Hpub as (bufs2 & Hpub & Hgf2).
  destruct (channels_fit _); [|discriminate].
  injection Hgf2 as <-. injection Hp as <-.
  exists n, ts, q, bufs.
  apply mapM_Forall2 in Hpop, Hpub.
  unfold adapt. destruct (_ || _); simpl; repeat split; auto.
Qed.

(** The gate and the engine reach the state through the verdict and the
    context only: a cycle with its gate is the cycle for the gate's
    verdict, with the context as the inference left it. *)
Lemma publish_set_whisper_context gf context num_new start_timestamp :
  publish (set_whisper_context gf context) num_new start_timestamp
  = option_map (fun gf' => set_whisper_context gf' context)
      (publish gf num_new start_timestamp).
Proof.
  unfold publish, set_whisper_context, channels_fit, channels. cbn.
  destruct (_ <=? _); [|reflexivity].
  destruct (mapM _ _); reflexivity.
Qed.

Lemma adapt_set_whisper_context gf context num_new duration skipped :
  adapt (set_whisper_context gf context) num_new duration skipped
  = set_whisper_context (adapt gf num_new duration skipped) context.
Proof.
  unfold adapt, set_whisper_context. cbn. destruct (_ || _); reflexivity.
Qed.

Lemma process_audio_from_buffer_gated_inv resample engine gf duration gf' :
  process_audio_from_buffer_gated resample engine gf duration = Some gf' ->
  exists gf1 num_new start_timestamp verdict gf0,
    assemble gf = Some (gf1, num_new, start_timestamp)
    /\ signal_gate (whisper_context gf1) (filler_p_threshold gf1)
         (resample (map copy_buffer (buffers gf1)) (wrap32 (last_num_frames gf1)))
         engine = Some verdict
    /\ process_audio_from_buffer gf (skipped_inference verdict) duration = Some gf0
    /\ gf' = set_whisper_context gf0 (context_left verdict).
Proof.
  unfold process_audio_from_buffer_gated, process_audio_from_buffer. intros Hp.
  apply obind_some in Hp as (((gf1 & n) & ts) & Ha & Hp).
  apply obind_some in Hp as ([] & Hlog & Hp).
  apply obind_some in Hp as (verdict & Hgate & Hp).
  apply obind_some in Hp as (gf2 & Hpub & Hp).
  injection Hp as <-.
  rewrite publish_set_whisper_context in Hpub.
  destruct (publish gf1 n ts) as [gf0|] eqn:Hpub0; [|discriminate].
  injection Hpub as <-.
  exists gf1, n, ts, verdict, (adapt gf0 n duration (skipped_inference verdict)).
  rewrite Ha. cbn [obind]. rewrite Hlog. cbn [obind]. rewrite Hpub0. cbn [obind].
  repeat split; auto. now rewrite adapt_set_whisper_context.
Qed.

Lemma memcpy_within_inv (buf buf' : list sample) (dst src bytes : Z) :
  memcpy_within buf dst src bytes = Some buf' ->
  exists data,
    read_range buf src (bytes / sizeof_float) = Some data
    /\ write_range buf dst data = Some buf'.
Proof.
  unfold memcpy_within. cbv zeta. destruct (_ && _); [discriminate|].
  intros Hm. apply obind_some in Hm as (data & Hr & Hw). eauto.
Qed.

(** The byte count of as many [float]s as a window can hold does not wrap. *)
Lemma float_count (n : Z) :
  0 <= n < 2 ^ 32 -> wrap64 (n * sizeof_float) / sizeof_float = n.
Proof.
  intros Hn. unfold sizeof_float. rewrite wrap64_small by lia.
  apply Z.div_mul. lia.
Qed.

Lemma pop_input_output gf num_new (ch ch1 : channel_buffers sample) :
  pop_input gf num_new ch = Some ch1 -> output_buffer ch1 = output_buffer ch.
Proof.
  unfold pop_input. intros Hp.
  destruct (0 <? last_num_frames gf).
  - apply obind_some in Hp as (cb & _ & Hp).
    apply obind_some in Hp as ([data rest] & _ & Hp).
    apply obind_some in Hp as (cb' & _ & Hp).
    now injection Hp as <-.
  - apply obind_some in Hp as ([data rest] & _ & Hp).
    apply obind_some in Hp as (cb' & _ & Hp).
    now injection Hp as <-.
Qed.

Lemma publish_channel_inv num_new (ch1 ch' : channel_buffers sample) :
  publish_channel num_new ch1 = Some ch' ->
  exists data,
    read_range (copy_buffer ch') 0 num_new = Some data
    /\ output_buffer ch' = output_buffer ch1 ++ data
    /\ input_buffer ch' = input_buffer ch1.
Proof.
  unfold publish_channel. intros Hp.
  apply obind_some in Hp as (data & Hr & Hp).
  injection Hp as <-. simpl. eauto.
Qed.

(** The samples left in the input buffer by the pop of one channel. *)
Lemma pop_input_input_length gf num_new (ch ch1 : channel_buffers sample) :
  0 <= num_new < 2 ^ 32 -> 0 <= overlap_frames gf < 2 ^ 32 ->
  pop_input gf num_new ch = Some ch1 ->
  Z.of_nat (length (input_buffer ch1))
  = Z.of_nat (length (input_buffer ch))
    - (num_new + if 0 <? last_num_frames gf then 0 else overlap_frames gf).
Proof.
  unfold pop_input. intros Hn Hov Hp.
  destruct (0 <? last_num_frames gf).
  - apply obind_some in Hp as (cb & _ & Hp).
    apply obind_some in Hp as ([data rest] & Hpop & Hp).
    apply obind_some in Hp as (cb' & _ & Hp).
    injection Hp as <-. simpl.
    rewrite wrap64_small in Hpop by (unfold sizeof_float; lia).
    apply pop_front_length in Hpop; lia.
  - apply obind_some in Hp as ([data rest] & Hpop & Hp).
    apply obind_some in Hp as (cb' & _ & Hp).
    injection Hp as <-. simpl.
    rewrite (wrap64_small (num_new + _)) in Hpop by lia.
    rewrite wrap64_small in Hpop by (unfold sizeof_float; lia).
    apply pop_front_length in Hpop; lia.
Qed.
Lemma write_range_inv {A : Type} (buf data buf' : list A) (off : Z) :
  write_range buf off data = Some buf' ->
  buf' = firstn (Z.to_nat off) buf ++ data
         ++ skipn (Z.to_nat off + length data) buf.
Proof.
  unfold write_range. destruct (_ && _); [|discriminate].
  now intros Hw; injection Hw as <-.
Qed.

End Cycle.

(** ** Claims on the output assembler *)

(** C1, as stated, fails on the second window of the example: the fresh
    samples 9..12 lie at index 4 of the new window, and what is published is
    5, 6, 7, 8, the head of the window. *)
Lemma publish_is_not_new_portion :
  exists gf',
    process_audio_from_buffer second_window_state true 0 = Some gf'
    /\ ~ publishes_from (overlap_frames second_window_state) second_window_state gf'.
Proof.
  eexists. split; [vm_compute; reflexivity|].
  intros (n & ts & q & Hd & _ & Hf).
  vm_compute in Hd. injection Hd as <- <- <-.
  inversion Hf as [|ch ch' l l' (data & Hr & Ho) _]; subst.
  vm_compute in Hr. injection Hr as <-. discriminate Ho.
Qed.

(** C1 (amended).  Every processed window appends to each channel's output
    buffer the first [num_new_frames_from_infos] samples of the analysis
    window, those at index 0, and enqueues one info whose frame count is
    that number and whose timestamp is the start timestamp found by the
    drain. *)
Theorem publish_appends_window_head {sample : Type}
    (gf gf' : cleanstream_data sample) (skipped : bool) (duration : Z) :
  process_audio_from_buffer gf skipped duration = Some gf' ->
  publishes_from 0 gf gf'.
Proof.
  intros Hp.
  apply process_audio_from_buffer_inv in Hp
    as (n & ts & q & bufs & Hd & Hpop & Hpub & _ & Hout & _).
  exists n, ts, q. repeat split; auto.
  eapply Forall2_impl; [|exact (Forall2_compose _ _ _ _ _ Hpop Hpub)].
  intros ch ch' (ch1 & H1 & H2). simpl in *.
  apply pop_input_output in H1.
  apply publish_channel_inv in H2 as (data & Hr & Ho & _).
  exists data. split; [assumption | congruence].
Qed.

Lemma publish_appends_window_head_witness :
  publishes_from 0 second_window_state
    (mk_data 1000 10 4 4 8
       [mk_channel [5; 6; 7; 8; 9; 10; 11; 12; 0; 0] [13; 14] [1; 2; 3; 4; 5; 6; 7; 8]]
       (map (fun k => mk_info 2 (100 + k)) [6; 2; 5])
       [mk_info 4 100; mk_info 4 103] true (f32.lit 3 4)).
Proof.
  apply (publish_appends_window_head second_window_state _ true 0).
  vm_compute. reflexivity.
Defined.

(** ** Claims on the timed audio queue *)

Section QueueConsistency.
Context {sample : Type}.
Implicit Types gf : cleanstream_data sample.

Lemma consistent_equal_sizes deficit gf :
  consistent deficit gf -> equal_channel_sizes gf.
Proof.
  unfold consistent, equal_channel_sizes. intros Hc ch1 ch2 H1 H2.
  rewrite Forall_forall in Hc.
  rewrite <- (Hc _ H1), <- (Hc _ H2). reflexivity.
Qed.

Lemma push_channels_input (bufs : list (channel_buffers sample)) :
  forall data nframes bufs',
    push_channels bufs data nframes = Some bufs' ->
    Forall2 (fun ch ch' =>
               Z.of_nat (length (input_buffer ch'))
               = Z.of_nat (length (input_buffer ch)) + nframes)
      bufs bufs'.
Proof.
  induction bufs as [|ch bufs IH]; simpl; intros data n bufs' Hp.
  - injection Hp as <-. constructor.
  - destruct data as [|d data]; [discriminate|].
    apply obind_some in Hp as (new & Hr & Hp).
    apply obind_some in Hp as (rest & Hrest & Hp).
    injection Hp as <-. constructor; [|eauto].
    simpl. unfold circlebuf.push_back. rewrite length_app.
    apply read_range_length in Hr. lia.
Qed.

Lemma pull_audio_input gf out gf' :
  pull_audio gf = Some (Some (out, gf')) ->
  info_buffer gf' = info_buffer gf
  /\ Forall2 (fun ch ch' => input_buffer ch' = input_buffer ch)
       (buffers gf) (buffers gf').
Proof.
  unfold pull_audio. destruct (info_out_buffer gf) as [|i infos]; [discriminate|].
  intros Hp. apply obind_some in Hp as (_ & _ & Hp).
  apply obind_some in Hp as (pulled & Hm & Hp).
  injection Hp as _ <-. simpl. split; [reflexivity|].
  apply mapM_Forall2 in Hm. clear -Hm.
  induction Hm as [|ch p l l' Hch _ IH]; simpl; constructor; auto.
  unfold pull_channel in Hch.
  apply obind_some in Hch as ([data rest] & _ & Hch).
  now injection Hch as <-.
Qed.

Lemma consistent_packet deficit gf audio gf' :
  consistent deficit gf ->
  step gf (Packet audio) = Some gf' ->
  consistent deficit gf'.
Proof.
  unfold step, cleanstream_filter_audio. intros Hc Hs.
  destruct (whisper_context gf); simpl in Hs; [|now injection Hs as <-].
  destruct (push_audio gf audio) as [g1|] eqn:Hpush; [|discriminate].
  simpl in Hs.
  assert (Hc1 : consistent deficit g1).
  { unfold push_audio in Hpush.
    apply obind_some in Hpush as (bufs & Hb & Hpush). injection Hpush as <-.
    destruct (channels_fit gf); [|discriminate].
    apply push_channels_input in Hb.
    unfold consistent in *. cbn -[Z.mul].
    eapply Forall2_transfer; [exact Hb | exact Hc |].
    intros ch ch' Hlen Hch. cbn -[Z.mul] in *.
    unfold circlebuf.push_back, circlebuf.size in *.
    rewrite queued_frames_app. cbn -[Z.mul]. unfold sizeof_float in *. lia. }
  destruct (pull_audio g1) as [[[out g2]|]|] eqn:Hpull; simpl in Hs;
    try discriminate; injection Hs as <-; [|exact Hc1].
  apply pull_audio_input in Hpull as (Hi & Hb).
  unfold consistent in *. rewrite Hi.
  eapply Forall2_transfer; [exact Hb | exact Hc1 |].
  intros ch ch' Hin Hch. cbn -[Z.mul] in *. now rewrite Hin.
Qed.

Lemma consistent_window deficit gf skipped duration gf' :
  in_range gf (Window skipped duration) ->
  consistent deficit gf ->
  step gf (Window skipped duration) = Some gf' ->
  consistent (deficit + first_window_extra gf (Window skipped duration)) gf'.
Proof.
  unfold step, first_window_extra. intros (Hpos & Hsum & Hov & _) Hc Hs.
  destruct (enough_input gf); simpl.
  2:{ injection Hs as <-. now rewrite Z.add_0_r. }
  apply process_audio_from_buffer_inv in Hs
    as (n & ts & q & bufs & Hd & Hpop & Hpub & Hq & _).
  apply drain_infos_frames in Hd as (Hfr & Hposq & Hn); [|assumption|lia|lia].
  pose proof (queued_frames_nonneg _ Hposq) as Hq'.
  pose proof (queued_frames_nonneg _ Hpos) as Hq0.
  unfold consistent in *. rewrite Hq.
  eapply Forall2_transfer;
    [exact (Forall2_compose _ _ _ _ _ Hpop Hpub) | exact Hc |].
  intros ch ch' (ch1 & H1 & H2) Hch. cbn -[Z.mul] in *.
  apply publish_channel_inv in H2 as (data & _ & _ & Hin). rewrite Hin.
  apply pop_input_input_length in H1; [|lia|lia].
  unfold circlebuf.size, sizeof_float in *.
  destruct (0 <? last_num_frames gf); cbn -[Z.mul]; lia.
Qed.

Lemma consistent_cycle deficit gf resample engine duration gf' :
  in_range gf (Cycle resample engine duration) ->
  consistent deficit gf ->
  step gf (Cycle resample engine duration) = Some gf' ->
  consistent (deficit + first_window_extra gf (Cycle resample engine duration)) gf'.
Proof.
  intros Hr Hc Hs. cbn [step] in Hs.
  destruct (enough_input gf) eqn:He.
  - apply process_audio_from_buffer_gated_inv in Hs
      as (gf1 & n & ts & verdict & gf0 & _ & _ & Hp & ->).
    apply (consistent_window deficit gf (skipped_inference verdict) duration gf0 Hr Hc).
    cbn [step]. now rewrite He.
  - apply (consistent_window deficit gf true duration gf' Hr Hc).
    cbn [step]. now rewrite He.
Qed.
End QueueConsistency.

(** C2, as stated, fails at the first window of the example: seven infos
    of two frames face fourteen samples before it; the window takes the
    frames of two infos and 4 + 4 samples, so that five infos, ten frames,
    face six samples after it. *)
Lemma first_drain_breaks_consistency :
  consistent 0 first_window_state
  /\ exists gf',
       step first_window_state (Window true 0) = Some gf'
       /\ ~ consistent 0 gf'.
Proof.
  split.
  - repeat constructor.
  - eexists. split; [vm_compute; reflexivity|].
    intros Hc. inversion Hc as [|? ? Hch _]. vm_compute in Hch. discriminate.
Qed.

Lemma consistent_step {sample : Type}
    (deficit : Z) (gf gf' : cleanstream_data sample) (ev : event) :
  in_range gf ev ->
  consistent deficit gf ->
  step gf ev = Some gf' ->
  consistent (deficit + first_window_extra gf ev) gf'.
Proof.
  intros Hr Hc Hs. destruct ev as [audio|skipped duration|resample engine duration].
  - simpl. rewrite Z.add_0_r. eapply consistent_packet; eassumption.
  - eapply consistent_window; eassumption.
  - eapply consistent_cycle; eassumption.
Qed.

(** C2 (amended).  Along every sequence of pushed packets and interleaved
    drains, every pushed packet and every drain of a window that has a
    predecessor keep the bytes of each channel's input buffer equal to the
    sample size times the frames announced by the queued infos.  The drain
    of the very first window pops [overlap_frames] samples more than its
    infos announce, and from then on each channel holds that many samples
    fewer than the infos announce.  All channels have equal sizes at every
    point. *)
Theorem queue_consistency_run {sample : Type} (evs : list event) :
  forall (deficit : Z) (gf gf' : cleanstream_data sample),
    run_in_range gf evs ->
    consistent deficit gf ->
    run gf evs = Some gf' ->
    consistent (deficit + run_extra gf evs) gf'
    /\ equal_channel_sizes gf'.
Proof.
  induction evs as [|ev evs IH]; intros deficit gf gf' Hr Hc Hrun.
  - injection Hrun as <-. cbn [run_extra]. rewrite Z.add_0_r.
    split; [exact Hc | eapply consistent_equal_sizes; exact Hc].
  - cbn [run run_in_range run_extra] in *. destruct Hr as [Hr Hrest].
    destruct (step gf ev) as [gf1|] eqn:Hs; [|discriminate].
    cbn [obind] in Hrun.
    rewrite Z.add_assoc.
    apply (IH _ gf1); [exact Hrest | | exact Hrun].
    eapply consistent_step; eassumption.
Qed.

Lemma queue_consistency_run_witness :
  let evs := [Window true 0; Packet (mk_audio [[15; 16]] 2 107)] in
  let gf' :=
    mk_data 1000 10 4 4 8
      [mk_channel [1; 2; 3; 4; 5; 6; 7; 8; 0; 0] [9; 10; 11; 12; 13; 14; 15; 16] []]
      (map (fun k => mk_info 2 (100 + k)) [3; 4; 5; 6; 2; 7])
      [] true (f32.lit 3 4) in
  consistent (0 + run_extra first_window_state evs) gf'
  /\ equal_channel_sizes gf'.
Proof.
  apply (queue_consistency_run
           [Window true 0; Packet (mk_audio [[15; 16]] 2 107)]
           0 first_window_state).
  - vm_compute. repeat split; try discriminate; repeat constructor; discriminate.
  - repeat constructor.
  - vm_compute. reflexivity.
Defined.

(** ** Claims on the adaptive latency controller *)

Lemma all_from_spec (n : nat) (p : Z -> bool) :
  forall k, all_from n p k = true ->
  forall z, k <= z < k + Z.of_nat n -> p z = true.
Proof.
  induction n as [|n IH]; intros k Hall z Hz; [lia|].
  simpl in Hall. apply andb_true_iff in Hall as [Hk Hall].
  destruct (Z.eq_dec z k) as [->|Hne]; [assumption|].
  apply (IH (k + 1)); [assumption | lia].
Qed.

(** For windows of up to 16 s of new audio the cap computed in [float] is
    three quarters of the duration, rounded down. *)
Lemma cap75_exact (new_ms : Z) :
  0 <= new_ms < 2 ^ 14 -> cap75 new_ms = 3 * new_ms / 4.
Proof.
  intros Hms. apply Z.eqb_eq.
  apply (all_from_spec (Z.to_nat (2 ^ 14)) (fun k => cap75 k =? 3 * k / 4) 0).
  - vm_compute. reflexivity.
  - rewrite Z2Nat.id; lia.
Qed.

(** The three branches of the controller while its arithmetic does not
    wrap: a slow cycle, skipped or not, takes 10 ms off and stops at 100; a
    cycle that is neither slow nor skipped takes the smaller of 10 ms more
    and three quarters of the new audio, with no floor; a fast skipped
    cycle changes nothing. *)
Lemma adapt_overlap_ms_branches (overlap_ms new_ms duration : Z) (skipped : bool) :
  10 <= overlap_ms < 2 ^ 64 - 10 -> 0 <= new_ms < 2 ^ 14 ->
  let overlap_ms' := adapt_overlap_ms overlap_ms new_ms duration skipped in
  (duration > new_ms ->
     overlap_ms' = Z.max (overlap_ms - 10) 100 /\ 100 <= overlap_ms')
  /\ (duration <= new_ms -> skipped = false ->
        overlap_ms' = Z.min (overlap_ms + 10) (3 * new_ms / 4)
        /\ 4 * overlap_ms' <= 3 * new_ms)
  /\ (duration <= new_ms -> skipped = true -> overlap_ms' = overlap_ms).
Proof.
  intros Hov Hms. unfold adapt_overlap_ms. cbv zeta.
  rewrite (cap75_exact _ Hms).
  rewrite !wrap64_small by lia.
  pose proof (Z.mul_div_le (3 * new_ms) 4 ltac:(lia)) as Hdiv.
  destruct (Z.gtb_spec duration new_ms) as [Hslow|Hfast].
  - repeat split; intros; lia.
  - repeat split; intros; subst; cbn [negb]; lia.
Qed.


(** ** Claims on the filler classification *)

Local Open Scope string_scope.

Lemma prefix_app (pat s : string) :
  String.prefix pat s = true <-> exists post, s = pat ++ post.
Proof.
  revert s. induction pat as [|c pat IH]; intros s; simpl.
  - split; [intros _; now exists s | intros _; now destruct s].
  - destruct s as [|d s]; simpl.
    + split; [discriminate | intros [post Hp]; discriminate].
    + destruct (ascii_dec c d) as [->|Hne].
      * rewrite IH. split; intros [post Hp]; exists post; simpl; congruence.
      * split; [discriminate | intros [post Hp]; simpl in Hp; congruence].
Qed.

Lemma find_unfold (s pat : string) :
  find s pat
  = if String.prefix pat s then Some O
    else match s with
         | EmptyString => None
         | String _ s' => option_map S (find s' pat)
         end.
Proof. destruct s; reflexivity. Qed.

Lemma found_contains (s pat : string) :
  found s pat = true <-> contains s pat.
Proof.
  unfold found, contains. split.
  - induction s as [|c s IH]; rewrite find_unfold.
    + destruct (String.prefix pat "") eqn:Hp; [|discriminate].
      intros _. apply prefix_app in Hp as [post Hp]. now exists "", post.
    + destruct (String.prefix pat (String c s)) eqn:Hp.
      * intros _. apply prefix_app in Hp as [post Hp]. now exists "", post.
      * destruct (find s pat); [|discriminate].
        intros _. destruct IH as (pre & post & ->); [reflexivity|].
        now exists (String c pre), post.
  - intros (pre & post & ->). induction pre as [|c pre IH]; rewrite find_unfold.
    + assert (Hp : String.prefix pat ("" ++ pat ++ post) = true)
        by (apply prefix_app; now exists post).
      now rewrite Hp.
    + destruct (String.prefix pat (String c pre ++ pat ++ post)); [reflexivity|].
      cbn [append].
      destruct (find (pre ++ pat ++ post) pat); [reflexivity | discriminate].
Qed.

(** The final condition, with the eight patterns gathered. *)
Lemma is_filler_existsb (text : string) (p threshold : f32.t) :
  is_filler text p threshold
  = (found (to_lower text) blank_marker && f32.ltb threshold p)
    || existsb (found (to_lower text)) disfluencies.
Proof.
  unfold is_filler, disfluencies. cbn [existsb].
  rewrite orb_false_r, !orb_assoc. reflexivity.
Qed.

Lemma is_filler_spec (text : string) (p threshold : f32.t) :
  is_filler text p threshold = true
  <-> (contains (to_lower text) blank_marker /\ f32.ltb threshold p = true)
      \/ Exists (contains (to_lower text)) disfluencies.
Proof.
  rewrite is_filler_existsb, orb_true_iff, andb_true_iff, found_contains.
  rewrite existsb_exists, Exists_exists.
  split; (intros [Hb|(d & Hin & Hd)]; [left; exact Hb | right; exists d]);
    (split; [exact Hin | now apply found_contains]).
Qed.

(** C5.  When the engine returns a transcript, the window is classified as
    filler speech exactly when the lower-cased transcript contains the blank
    marker and the mean token probability strictly exceeds the threshold,
    or the lower-cased transcript contains one of the eight disfluency
    patterns.  "um, hmm" at probability 0.9 with the threshold 0.75 is
    filler; "hello world" is not, whatever the probabilities and the
    threshold. *)
Theorem filler_classification :
  (forall text token_p threshold,
     run_whisper_inference true 0 text token_p threshold = true
     <-> (contains (to_lower text) blank_marker
          /\ f32.ltb threshold (sentence_p token_p) = true)
         \/ Exists (contains (to_lower text)) disfluencies)
  /\ sentence_p [f32.lit 9 10] = f32.lit 9 10
  /\ run_whisper_inference true 0 "um, hmm" [f32.lit 9 10] (f32.lit 3 4) = true
  /\ (forall token_p threshold,
        run_whisper_inference true 0 "hello world" token_p threshold = false).
Proof.
  split; [|split; [|split]].
  - intros text token_p threshold. unfold run_whisper_inference. simpl.
    apply is_filler_spec.
  - vm_compute. reflexivity.
  - vm_compute. reflexivity.
  - intros token_p threshold. unfold run_whisper_inference. simpl.
    rewrite is_filler_existsb. reflexivity.
Qed.

(** C8, as stated, fails: with no token the mean token probability is
    0.0f / 0.0f, which is not a number and compares equal to nothing, 0
    included. *)
Lemma zero_tokens_probability_is_not_zero :
  sentence_p [] = f32.nan
  /\ sentence_p [] <> f32.zero
  /\ SFeqb (sentence_p []) f32.zero = false.
Proof. vm_compute. repeat split. discriminate. Qed.

(** C8 (amended).  With no token the mean token probability is not a
    number; it exceeds no threshold, so a transcript without tokens is
    classified as filler exactly when it contains one of the disfluency
    patterns, never through the blank marker and the probability. *)
Theorem zero_tokens_classification :
  f32.is_nan (sentence_p []) = true
  /\ (forall threshold, f32.ltb threshold (sentence_p []) = false)
  /\ (forall text threshold,
        run_whisper_inference true 0 text [] threshold = true
        <-> Exists (contains (to_lower text)) disfluencies).
Proof.
  assert (Hlt : forall threshold, f32.ltb threshold (sentence_p []) = false).
  { intros threshold. change (sentence_p []) with S754_nan.
    unfold f32.ltb, SFltb. now destruct threshold. }
  split; [reflexivity | split; [exact Hlt|]].
  intros text threshold. unfold run_whisper_inference. simpl.
  rewrite is_filler_spec, Hlt.
  split; [intros [[_ Hf]|He]; [discriminate | exact He] | now right].
Qed.

Local Close Scope string_scope.

(** ** Claims on the voice activity detection *)

(** C6, as stated, fails in the arithmetic of the code.  Take the three
    samples 2^-32, 2^-7 - 2^-31 and 8722557 * 2^-36 at 16 kHz.  The filter
    adds the first to the second, which rounds to 2^-7 (a tie, to even), and
    subtracts the first again, which rounds to 2^-7 once more; the mean of
    the filtered window is exactly 0.0001f: speech.  Multiplied by
    1 + 2^-23 the samples are 2^-32 + 2^-55, 2^-7 and 8722558 * 2^-36; now
    the sum rounds to 2^-7 and the difference to 2^-7 - 2^-31, the second
    filtered sample loses one unit in the last place, and so does the sum
    of the absolute values; the mean falls below 0.0001f: silence. *)
Lemma vad_scaling_flips_speech :
  let pcmf32 := [S754_finite false 8388608 (-55);
                 S754_finite false 16777215 (-31);
                 S754_finite false 8722557 (-36)] in
  let c := S754_finite false 8388609 (-23) in
  f32.leb (f32.of_Z 1) c = true
  /\ high_pass_filter pcmf32 FREQ_THOLD WHISPER_SAMPLE_RATE
     = Some [S754_finite false 8388608 (-55);
             S754_finite false 10143117 (-35);
             S754_finite false 10546914 (-41)]
  /\ high_pass_filter (scale_window c pcmf32) FREQ_THOLD WHISPER_SAMPLE_RATE
     = Some [S754_finite false 8388609 (-55);
             S754_finite false 10143116 (-35);
             S754_finite false 10546914 (-41)]
  /\ vad_simple pcmf32 WHISPER_SAMPLE_RATE VAD_THOLD FREQ_THOLD = Some true
  /\ vad_simple (scale_window c pcmf32) WHISPER_SAMPLE_RATE VAD_THOLD FREQ_THOLD
     = Some false.
Proof. vm_compute. repeat split. Qed.

Section ExactVad.
Local Open Scope Q_scope.

Variable c : Q.

(** The filter is homogeneous in exact arithmetic. *)
Lemma hpf_loop_scale (alpha : Q) (rest : list Q) :
  forall y prev y' prev',
    y' == c * y -> prev' == c * prev ->
    Forall2 Qeq (hpf_loop alpha y' prev' (scale_window c rest))
      (scale_window c (hpf_loop alpha y prev rest)).
Proof.
  induction rest as [|x rest IH]; intros y prev y' prev' Hy Hp;
    cbn [hpf_loop scale_window map]; [constructor|].
  assert (Hstep : a_mul alpha (a_sub (a_add y' (a_mul c x)) prev')
                  == c * a_mul alpha (a_sub (a_add y x) prev)).
  { cbn. rewrite Hy, Hp. ring. }
  constructor; [exact Hstep | apply IH; exact Hstep].
Qed.

Lemma high_pass_filter_scale (pcmf32 filtered : list Q) (cutoff : Q) (rate : Z) :
  high_pass_filter pcmf32 cutoff rate = Some filtered ->
  exists filtered',
    high_pass_filter (scale_window c pcmf32) cutoff rate = Some filtered'
    /\ Forall2 Qeq filtered' (scale_window c filtered).
Proof.
  destruct pcmf32 as [|x0 rest]; [discriminate|].
  change (scale_window c (x0 :: rest)) with (a_mul c x0 :: scale_window c rest).
  unfold high_pass_filter. intros Hf. injection Hf as <-.
  eexists. split; [reflexivity|].
  set (alpha := hpf_alpha cutoff rate).
  change (scale_window c (x0 :: hpf_loop alpha x0 x0 rest))
    with (a_mul c x0 :: scale_window c (hpf_loop alpha x0 x0 rest)).
  constructor; [reflexivity|].
  apply hpf_loop_scale; reflexivity.
Qed.

Hypothesis c_nonneg : 0 <= c.

(** So is the sum of the absolute values, for a factor that is not negative. *)
Lemma sum_abs_scale (l : list Q) :
  forall l' acc acc',
    Forall2 Qeq l' (scale_window c l) -> acc' == c * acc ->
    fold_left (fun energy x => a_add energy (a_abs x)) l' acc'
    == c * fold_left (fun energy x => a_add energy (a_abs x)) l acc.
Proof.
  induction l as [|x l IH]; intros l' acc acc' Hl Hacc;
    inversion Hl as [|x' ? l'' ? Hx Hl']; subst; cbn [fold_left]; [exact Hacc|].
  apply IH; [exact Hl'|].
  cbn. rewrite Hacc, Hx, Qabs_Qmult, (Qabs_pos c c_nonneg). ring.
Qed.

Lemma sum_abs_nonneg (l : list Q) :
  forall acc, 0 <= acc ->
    0 <= fold_left (fun energy x => a_add energy (a_abs x)) l acc.
Proof.
  induction l as [|x l IH]; intros acc Hacc; cbn [fold_left]; [exact Hacc|].
  apply IH. cbn.
  rewrite <- (Qplus_0_r 0). apply Qplus_le_compat; [exact Hacc | apply Qabs_nonneg].
Qed.

Lemma mean_abs_nonneg (l : list Q) : 0 <= mean_abs l.
Proof.
  unfold mean_abs, sum_abs. cbn [a_div a_of_Z a_zero Q_arith].
  apply Qmult_le_0_compat.
  - apply sum_abs_nonneg. apply Qle_refl.
  - apply Qinv_le_0_compat. change 0 with (inject_Z 0).
    rewrite <- Zle_Qle. apply Nat2Z.is_nonneg.
Qed.

Lemma mean_abs_scale (l l' : list Q) :
  Forall2 Qeq l' (scale_window c l) -> mean_abs l' == c * mean_abs l.
Proof.
  intros Hl. unfold mean_abs, sum_abs.
  assert (Hlen : length l' = length l).
  { apply Forall2_length in Hl. unfold scale_window in Hl.
    now rewrite length_map in Hl. }
  rewrite Hlen. cbn [a_div a_of_Z a_zero Q_arith].
  rewrite (sum_abs_scale l l' 0 0 Hl) by ring.
  unfold Qdiv. ring.
Qed.
End ExactVad.

(** C6 (amended).  In exact arithmetic, where the filter and the mean are
    homogeneous, the detection is monotonic in amplitude: a window
    classified as speech is still classified as speech after every sample
    is multiplied by a constant of 1 or more.  In the arithmetic of the
    code the rounding breaks the homogeneity and a speech classification can
    flip to silence. *)
Theorem vad_monotonic_exact (pcmf32 : list Q) (c : Q) (rate : Z)
    (vad_thold freq_thold : Q) :
  (1 <= c)%Q ->
  vad_simple pcmf32 rate vad_thold freq_thold = Some true ->
  vad_simple (scale_window c pcmf32) rate vad_thold freq_thold = Some true.
Proof.
  intros Hc. assert (Hc0 : (0 <= c)%Q) by (apply Qle_trans with (2 := Hc); discriminate).
  unfold vad_simple. intros Hv.
  apply obind_some in Hv as (filtered & Hf & Hv).
  assert (Hf' : exists filtered',
             (if a_ltb a_zero freq_thold
              then high_pass_filter (scale_window c pcmf32) freq_thold rate
              else Some (scale_window c pcmf32)) = Some filtered'
             /\ Forall2 Qeq filtered' (scale_window c filtered)).
  { destruct (a_ltb a_zero freq_thold).
    - now apply high_pass_filter_scale.
    - injection Hf as <-. eexists. split; [reflexivity|].
      clear. induction (scale_window c pcmf32); constructor; auto. reflexivity. }
  destruct Hf' as (filtered' & -> & Hscale). cbn [obind].
  cbn [a_ltb Q_arith] in *.
  destruct (Qle_bool vad_thold (mean_abs filtered)) eqn:Hle; [|discriminate].
  apply Qle_bool_iff in Hle.
  assert (Hle' : (vad_thold <= mean_abs filtered')%Q).
  { rewrite (mean_abs_scale c Hc0 _ _ Hscale).
    apply Qle_trans with (1 := Hle).
    rewrite <- (Qmult_1_l (mean_abs filtered)) at 1.
    apply Qmult_le_compat_r; [exact Hc | apply mean_abs_nonneg]. }
  apply Qle_bool_iff in Hle'. now rewrite Hle'.
Qed.

Lemma vad_monotonic_exact_witness :
  vad_simple (scale_window (3 # 2) [1 # 100; -1 # 50; 3 # 100]) 16000
    (1 # 10000) (inject_Z 100) = Some true.
Proof.
  apply (vad_monotonic_exact [1 # 100; -1 # 50; 3 # 100] (3 # 2) 16000
           (1 # 10000) (inject_Z 100)).
  - discriminate.
  - vm_compute. reflexivity.
Defined.

(** ** Claims on the word boundary check *)

Lemma read_range_some {A : Type} (buf : list A) (off n : Z) :
  0 <= off -> 0 <= n -> off + n <= Z.of_nat (length buf) ->
  exists data, read_range buf off n = Some data.
Proof.
  intros Ho Hn Hb. unfold read_range.
  destruct (Z.leb_spec 0 off); [|lia].
  destruct (Z.leb_spec 0 n); [|lia].
  destruct (Z.leb_spec (off + n) (Z.of_nat (length buf))); [|lia].
  simpl. eauto.
Qed.

Section WordBoundaryReads.
Context {F : Type} `{Arith F}.
Variables (pcmf32 : list F) (n_samples_window bound : Z).
Hypothesis window_pos : 0 < n_samples_window.
Hypothesis bound_fits : bound + n_samples_window <= Z.of_nat (length pcmf32).
Hypothesis size_fits : Z.of_nat (length pcmf32) < 2 ^ 64.

(** The logging loop ends and reads inside the array. *)
Lemma log_windows_ok (fuel : nat) :
  forall i, 0 <= i -> bound - i <= Z.of_nat fuel ->
    log_windows fuel pcmf32 i bound n_samples_window = Some tt.
Proof.
  induction fuel as [|fuel IH]; intros i Hi Hfuel.
  - simpl. destruct (Z.ltb_spec i bound); [lia | reflexivity].
  - cbn [log_windows]. destruct (Z.ltb_spec i bound); [|reflexivity].
    unfold avg_energy_in_window.
    destruct (read_range_some pcmf32 i n_samples_window) as [w ->]; try lia.
    cbn [obind]. rewrite wrap64_small by lia.
    apply IH; lia.
Qed.
End WordBoundaryReads.

(** On a window of at least two sub-windows every read of the check lies
    inside the array, and the check answers the sub-window length or 0. *)
Lemma word_boundary_reads_in_bounds {F : Type} `{Arith F}
    (pcmf32 : list F) (rate : Z) (thold : F) :
  let n_samples_window := wrap32 (rate * 50) / 1000 in
  let pcm32f_size := Z.of_nat (length pcmf32) in
  0 < n_samples_window -> 2 * n_samples_window <= pcm32f_size < 2 ^ 64 ->
  word_boundary_simple pcmf32 pcm32f_size rate thold = Some n_samples_window
  \/ word_boundary_simple pcmf32 pcm32f_size rate thold = Some 0.
Proof.
  intros n size Hn Hsize. unfold word_boundary_simple.
  fold n. fold size. rewrite wrap64_small by lia.
  unfold avg_energy_in_window, max_energy_in_window.
  destruct (read_range_some pcmf32 0 n) as [w1 ->]; try lia.
  destruct (read_range_some pcmf32 (size - n) n) as [w2 ->]; try (unfold size in *; lia).
  destruct (read_range_some pcmf32 n (size - n)) as [w3 ->]; try (unfold size in *; lia).
  cbn [obind].
  rewrite (log_windows_ok pcmf32 n (size - n)); try (unfold size in *; lia).
  cbn [obind]. destruct (_ && _); auto.
Qed.

(** C7 (the code departs from the claim).  On a window of three 50 ms
    sub-windows that is silent but for its last sample, the first
    sub-window has the average energy 0 and the interior sub-window the
    maximum 0, so the first average is not strictly below 0.25 times the
    interior maximum; the check scans from the second sub-window to the end
    of the array, finds the peak of the last sub-window, and reports a
    boundary at 800. *)
Theorem word_boundary_counts_last_window :
  word_boundary_simple late_peak_window 2400 WHISPER_SAMPLE_RATE (f32.lit 1 4)
  = Some 800
  /\ avg_energy_in_window late_peak_window 0 800 = Some f32.zero
  /\ max_energy_in_window late_peak_window 800 800 = Some f32.zero
  /\ max_energy_in_window late_peak_window 800 1600 = Some (f32.of_Z 1)
  /\ f32.ltb f32.zero (f32.mul f32.zero (f32.lit 1 4)) = false.
Proof. vm_compute. repeat split. Qed.

(** ** Further properties of the worker's cycle *)

Lemma write_range_some {A : Type} (buf data : list A) (off : Z) :
  0 <= off -> off + Z.of_nat (length data) <= Z.of_nat (length buf) ->
  exists buf', write_range buf off data = Some buf' /\ length buf' = length buf.
Proof.
  intros Ho Hb. unfold write_range.
  destruct (Z.leb_spec 0 off); [|lia].
  destruct (Z.leb_spec (off + Z.of_nat (length data)) (Z.of_nat (length buf))); [|lia].
  eexists. split; [reflexivity|].
  rewrite !length_app, length_firstn, length_skipn. lia.
Qed.

Lemma write_range_length {A : Type} (buf data buf' : list A) (off : Z) :
  write_range buf off data = Some buf' -> length buf' = length buf.
Proof.
  unfold write_range.
  destruct (Z.leb_spec 0 off); [|discriminate].
  destruct (Z.leb_spec (off + Z.of_nat (length data)) (Z.of_nat (length buf)));
    [|discriminate].
  intros Hw. injection Hw as <-.
  rewrite !length_app, length_firstn, length_skipn. lia.
Qed.

Lemma pop_front_some {A : Type} (cb : list A) (k : Z) :
  0 <= k <= Z.of_nat (length cb) ->
  circlebuf.pop_front sizeof_float cb (k * sizeof_float)
  = Some (firstn (Z.to_nat k) cb, skipn (Z.to_nat k) cb).
Proof.
  intros Hk. unfold circlebuf.pop_front, circlebuf.size, sizeof_float.
  destruct (Z.leb_spec (k * 4) (4 * Z.of_nat (length cb))); [|lia].
  now rewrite Z.div_mul by lia.
Qed.

Lemma mapM_some {A B : Type} (f : A -> option B) (Q : B -> Prop) (l : list A) :
  Forall (fun a => exists b, f a = Some b /\ Q b) l ->
  exists l', mapM f l = Some l' /\ Forall Q l'.
Proof.
  induction 1 as [|a l (b & Hb & Hq) _ (l' & Hl' & Hql')]; simpl; [eauto|].
  rewrite Hb, Hl'. simpl. eauto.
Qed.

(** The count of new frames is a [uint32_t] whatever the queue holds. *)
Lemma drain_infos_range target q :
  forall acc ts num_new ts' q',
    0 <= acc < 2 ^ 32 ->
    drain_infos target q acc ts = (num_new, ts', q') ->
    0 <= num_new < 2 ^ 32.
Proof.
  induction q as [|i rest IH]; simpl; intros acc ts n ts' q' Hacc Hd.
  - now injection Hd as <- _ _.
  - destruct (_ >=? _).
    + injection Hd as <- _ _. apply wrap32_range.
    + eapply IH; [|exact Hd]. apply wrap32_range.
Qed.

Section CycleSafety.
Context {sample : Type}.
Implicit Types gf : cleanstream_data sample.

Lemma memcpy_within_some (buf : list sample) (src n : Z) :
  0 <= n <= src -> src + n <= Z.of_nat (length buf) -> n < 2 ^ 32 ->
  exists buf',
    memcpy_within buf 0 src (wrap64 (n * sizeof_float)) = Some buf'
    /\ length buf' = length buf.
Proof.
  intros Hn Hb Hn32. unfold memcpy_within. rewrite float_count by lia. cbv zeta.
  replace ((0 <? n) && (src <? 0 + n) && (0 <? src + n)) with false.
  2:{ symmetry. destruct (Z.ltb_spec src (0 + n)); [lia|]. apply andb_false_iff. left.
      apply andb_false_r. }
  destruct (read_range_some buf src n) as [data Hdata]; try lia.
  rewrite Hdata. cbn [obind].
  apply read_range_length in Hdata.
  apply write_range_some; lia.
Qed.

(** The pop of one channel stays inside the analysis buffer and the input
    buffer once the drain count fits the window and the input. *)
Lemma pop_input_some gf num_new (ch : channel_buffers sample) :
  ready gf -> disjoint_overlap gf ->
  0 <= num_new < frames gf - overlap_frames gf ->
  Z.of_nat (length (copy_buffer ch)) = frames gf ->
  frames gf <= Z.of_nat (length (input_buffer ch)) ->
  exists ch1,
    pop_input gf num_new ch = Some ch1
    /\ length (copy_buffer ch1) = length (copy_buffer ch).
Proof.
  intros (Hov & Hfr & Hlast & _) Hdis Hn Hcopy Hin. unfold pop_input.
  destruct (Z.ltb_spec 0 (last_num_frames gf)) as [Hpos|Hzero].
  - destruct Hlast as [Hlast|Hlast]; [lia|].
    destruct Hdis as [Hdis|Hdis]; [lia|].
    destruct (memcpy_within_some (copy_buffer ch)
                (last_num_frames gf - overlap_frames gf) (overlap_frames gf))
      as (cb & Hcb & Hcbl); try lia.
    rewrite Hcb. cbn [obind].
    rewrite wrap64_small by (unfold sizeof_float; lia).
    rewrite pop_front_some by lia. cbn [obind].
    destruct (write_range_some cb (firstn (Z.to_nat num_new) (input_buffer ch))
                (overlap_frames gf)) as (cb' & Hcb' & Hcbl');
      [lia | rewrite length_firstn; lia |].
    rewrite Hcb'. cbn [obind]. eexists. split; [reflexivity|].
    cbn [copy_buffer]. congruence.
  - rewrite (wrap64_small (num_new + _)) by lia.
    rewrite wrap64_small by (unfold sizeof_float; lia).
    rewrite pop_front_some by lia. cbn [obind].
    destruct (write_range_some (copy_buffer ch)
                (firstn (Z.to_nat (num_new + overlap_frames gf)) (input_buffer ch)) 0)
      as (cb' & Hcb' & Hcbl'); [lia | rewrite length_firstn; lia |].
    rewrite Hcb'. cbn [obind]. eexists. split; [reflexivity|].
    cbn [copy_buffer]. exact Hcbl'.
Qed.

Lemma enough_input_all gf :
  frames gf < 2 ^ 32 -> 0 <= frames gf ->
  enough_input gf = true -> equal_channel_sizes gf ->
  Forall (fun ch => frames gf <= Z.of_nat (length (input_buffer ch))) (buffers gf).
Proof.
  unfold enough_input, equal_channel_sizes. intros Hfr Hfr0 He Heq.
  destruct (buffers gf) as [|ch0 l] eqn:Hb; [discriminate|].
  rewrite wrap64_small in He by (unfold sizeof_float; lia).
  apply Z.leb_le in He.
  apply Forall_forall. intros ch Hch.
  specialize (Heq ch ch0 Hch (or_introl eq_refl)).
  unfold circlebuf.size, sizeof_float in *. lia.
Qed.
End CycleSafety.

(** The two locked blocks complete on a ready state that passed the
    worker's guard. *)
Lemma process_audio_from_buffer_some {sample : Type} (gf : cleanstream_data sample)
    (skipped : bool) (duration : Z) :
  ready gf -> equal_channel_sizes gf -> enough_input gf = true ->
  channels gf <= MAX_PREPROC_CHANNELS -> sample_rate gf <> 0 ->
  disjoint_overlap gf ->
  exists gf', process_audio_from_buffer gf skipped duration = Some gf'.
Proof.
  intros Hready Heq Hen Hch Hrate Hdis.
  pose proof Hready as (Hov & Hfr & Hlast & Hcopy).
  pose proof (enough_input_all gf Hfr ltac:(lia) Hen Heq) as Hin.
  unfold process_audio_from_buffer, assemble.
  destruct (drain_infos _ (info_buffer gf) 0 0) as [[n ts] q] eqn:Hd.
  rewrite wrap64_small in Hd by lia.
  apply drain_infos_below_target in Hd as [Hn0 Hn]; [|lia|lia].
  destruct (mapM_some (pop_input gf n)
              (fun ch1 => Z.of_nat (length (copy_buffer ch1)) = frames gf)
              (buffers gf)) as (bufs & Hbufs & Hcopy1).
  { rewrite Forall_forall in *. intros ch Hin'.
    destruct (pop_input_some gf n ch Hready Hdis) as (ch1 & H1 & Hl); auto; [lia|].
    exists ch1. split; [exact H1|]. rewrite Hl. auto. }
  assert (Hfit : channels_fit gf = true) by (apply Z.leb_le; exact Hch).
  rewrite Hfit, Hbufs. cbn [obind]. unfold log_processing. cbn [sample_rate].
  destruct (Z.eqb_spec (sample_rate gf) 0) as [|_]; [contradiction|]. cbn [obind].
  unfold publish, channels_fit, channels. cbn [buffers].
  assert (Hlen : length bufs = length (buffers gf)).
  { apply mapM_Forall2 in Hbufs. symmetry. exact (Forall2_length Hbufs). }
  rewrite Hlen. fold (channels gf). fold (channels_fit gf). rewrite Hfit.
  destruct (mapM_some (publish_channel n) (fun _ => True) bufs) as (bufs' & Hbufs' & _).
  { eapply Forall_impl; [|exact Hcopy1]. intros ch1 Hl. cbn beta in Hl.
    unfold publish_channel.
    destruct (read_range_some (copy_buffer ch1) 0 n) as [data ->]; try lia.
    cbn [obind]. eauto. }
  rewrite Hbufs'. cbn [obind]. eauto.
Qed.

(** The filter leaves a window as long as it found it. *)
Lemma hpf_loop_length {F : Type} `{Arith F} (alpha : F) (rest : list F) :
  forall y prev, length (hpf_loop alpha y prev rest) = length rest.
Proof. induction rest as [|x rest IH]; intros y prev; cbn; [reflexivity | now rewrite IH]. Qed.

(** From one sub-window on, every read of the word boundary check lies
    inside the array. *)
Lemma word_boundary_simple_some {F : Type} `{Arith F}
    (pcmf32 : list F) (rate : Z) (thold : F) :
  let n_samples_window := wrap32 (rate * 50) / 1000 in
  let pcm32f_size := Z.of_nat (length pcmf32) in
  0 < n_samples_window -> n_samples_window <= pcm32f_size < 2 ^ 64 ->
  exists word_boundary,
    word_boundary_simple pcmf32 pcm32f_size rate thold = Some word_boundary.
Proof.
  intros n size Hn Hsize. unfold word_boundary_simple.
  fold n. fold size. rewrite wrap64_small by lia.
  unfold avg_energy_in_window, max_energy_in_window.
  destruct (read_range_some pcmf32 0 n) as [w1 ->]; try lia.
  destruct (read_range_some pcmf32 (size - n) n) as [w2 ->]; try (unfold size in *; lia).
  destruct (read_range_some pcmf32 n (size - n)) as [w3 ->]; try (unfold size in *; lia).
  cbn [obind].
  rewrite (log_windows_ok pcmf32 n (size - n)); try (unfold size in *; lia).
  cbn [obind]. destruct (_ && _); eauto.
Qed.

(** The gate reads inside every window of at least one 50 ms sub-window,
    800 samples at 16 kHz. *)
Lemma signal_gate_some (context : bool) (threshold : f32.t) (output0 : list f32.t)
    (engine : whisper_full_outcome) :
  800 <= Z.of_nat (length output0) < 2 ^ 32 ->
  exists verdict, signal_gate context threshold output0 engine = Some verdict.
Proof.
  intros Hlen. unfold signal_gate, vad_simple.
  change (a_ltb a_zero FREQ_THOLD) with true. cbv iota.
  destruct output0 as [|x0 rest]; [cbn in Hlen; lia|].
  cbn [high_pass_filter obind].
  set (filtered := x0 :: hpf_loop _ x0 x0 rest).
  assert (Hfl : length filtered = length (x0 :: rest)).
  { unfold filtered. cbn [length]. now rewrite hpf_loop_length. }
  destruct (a_ltb (mean_abs filtered) VAD_THOLD); cbn [obind]; [eauto|].
  rewrite <- Hfl.
  destruct (word_boundary_simple_some filtered WHISPER_SAMPLE_RATE (f32.lit 1 4))
    as [word_boundary ->].
  - reflexivity.
  - change (wrap32 (WHISPER_SAMPLE_RATE * 50) / 1000) with 800. rewrite Hfl. lia.
  - cbn [obind]. destruct (0 <? word_boundary); [|eauto].
    destruct (run_whisper_inference_on context engine threshold). eauto.
Qed.

(** X1.  A cycle of the worker completes, with no failed pop, no copy
    outside the analysis buffers and no read of the gate outside the
    resampled window, whatever the packet sizes, the engine's outcome and
    the measured duration, on a state that is ready, has passed the
    worker's guard with equally filled channels, has at most two channels
    and a sample rate other than 0, keeps the overlap clear of the place it
    is copied to, and for which the resampler returns at least one 50 ms
    sub-window (800 samples at 16 kHz) and fewer than 2^32 samples. *)
Theorem cycle_succeeds {sample : Type} (gf : cleanstream_data sample)
    (resample : list (list sample) -> Z -> list f32.t) (engine : whisper_full_outcome)
    (duration : Z) :
  ready gf -> equal_channel_sizes gf -> enough_input gf = true ->
  channels gf <= MAX_PREPROC_CHANNELS -> sample_rate gf <> 0 ->
  disjoint_overlap gf ->
  800 <= out_frames resample gf < 2 ^ 32 ->
  exists gf', process_audio_from_buffer_gated resample engine gf duration = Some gf'.
Proof.
  intros Hready Heq Hen Hch Hrate Hdis Hout.
  destruct (process_audio_from_buffer_some gf true duration Hready Heq Hen Hch Hrate Hdis)
    as [gf0 Hp].
  unfold process_audio_from_buffer in Hp.
  unfold process_audio_from_buffer_gated. unfold out_frames in Hout.
  destruct (assemble gf) as [[[gf1 n] ts]|]; [|discriminate].
  cbn [obind] in *.
  destruct (log_processing gf1); [|discriminate]. cbn [obind] in *.
  destruct (signal_gate_some (whisper_context gf1) (filler_p_threshold gf1)
              (resample (map copy_buffer (buffers gf1)) (wrap32 (last_num_frames gf1)))
              engine Hout) as [verdict ->].
  cbn [obind]. rewrite publish_set_whisper_context.
  destruct (publish gf1 n ts); [|discriminate]. cbn [option_map obind]. eauto.
Qed.

Lemma cycle_succeeds_witness :
  exists gf',
    process_audio_from_buffer_gated resample_mono_16k (Returns 0 "" []) fed_state 5
    = Some gf'.
Proof.
  apply (cycle_succeeds fed_state resample_mono_16k (Returns 0 "" []) 5).
  - unfold ready. split; [|split; [|split]].
    + vm_compute. split; [discriminate | reflexivity].
    + reflexivity.
    + left. reflexivity.
    + constructor; [|constructor]. vm_compute. reflexivity.
  - intros ch1 ch2 [<-|[]] [<-|[]]. reflexivity.
  - vm_compute. reflexivity.
  - vm_compute. discriminate.
  - discriminate.
  - left. reflexivity.
  - vm_compute. split; [discriminate | reflexivity].
Defined.

Lemma firstn_app_le {A : Type} (n : nat) (l1 l2 : list A) :
  (n <= length l1)%nat -> firstn n (l1 ++ l2) = firstn n l1.
Proof.
  intros Hn. rewrite firstn_app.
  replace (n - length l1)%nat with O by lia. cbn [firstn]. apply app_nil_r.
Qed.

Lemma slice_app {A : Type} (k m : nat) (l1 l2 : list A) :
  (k + m = length l1)%nat -> firstn m (skipn k (l1 ++ l2)) = skipn k l1.
Proof.
  intros Hl. rewrite skipn_app.
  replace (k - length l1)%nat with O by lia. cbn [skipn].
  rewrite firstn_app_le by (rewrite length_skipn; lia).
  apply firstn_all2. rewrite length_skipn. lia.
Qed.

Lemma three_parts {A : Type} (a b : nat) (l : list A) :
  firstn a l ++ firstn b (skipn a l) ++ skipn (a + b) l = l.
Proof.
  rewrite (Nat.add_comm a b), <- skipn_skipn, firstn_skipn. apply firstn_skipn.
Qed.

Lemma pop_front_inv {A : Type} (cb data rest : list A) (k : Z) :
  0 <= k ->
  circlebuf.pop_front sizeof_float cb (k * sizeof_float) = Some (data, rest) ->
  data = firstn (Z.to_nat k) cb /\ rest = skipn (Z.to_nat k) cb
  /\ k <= Z.of_nat (length cb).
Proof.
  unfold circlebuf.pop_front, circlebuf.size, sizeof_float. intros Hk Hp.
  destruct (Z.leb_spec (k * 4) (4 * Z.of_nat (length cb))); [|discriminate].
  rewrite Z.div_mul in Hp by lia. injection Hp as <- <-.
  repeat split; lia.
Qed.

Section CycleLayout.
Context {sample : Type}.
Implicit Types gf : cleanstream_data sample.

Lemma pop_input_copy_length gf num_new (ch ch1 : channel_buffers sample) :
  pop_input gf num_new ch = Some ch1 ->
  length (copy_buffer ch1) = length (copy_buffer ch).
Proof.
  unfold pop_input. intros Hp. destruct (0 <? last_num_frames gf).
  - apply obind_some in Hp as (cb & Hm & Hp).
    apply memcpy_within_inv in Hm as (tail & _ & Hcb).
    apply obind_some in Hp as ([data rest] & _ & Hp).
    apply obind_some in Hp as (cb' & Hcb' & Hp).
    injection Hp as <-. cbn [copy_buffer].
    apply write_range_length in Hcb, Hcb'. congruence.
  - apply obind_some in Hp as ([data rest] & _ & Hp).
    apply obind_some in Hp as (cb' & Hcb' & Hp).
    injection Hp as <-. cbn [copy_buffer].
    now apply write_range_length in Hcb'.
Qed.

(** The window of a channel after the pop: what the previous window held
    back, then the samples taken from the front of the input buffer. *)
Lemma pop_input_layout gf num_new (ch ch1 : channel_buffers sample) :
  0 <= num_new < 2 ^ 32 -> 0 <= overlap_frames gf < 2 ^ 32 ->
  pop_input gf num_new ch = Some ch1 ->
  exists look fresh rest,
    lookahead gf ch = Some look
    /\ copy_buffer ch1 = (look ++ fresh) ++ rest
    /\ input_buffer ch = fresh ++ input_buffer ch1
    /\ Z.of_nat (length (look ++ fresh)) = num_new + overlap_frames gf
    /\ output_buffer ch1 = output_buffer ch.
Proof.
  unfold pop_input, lookahead. intros Hn Hov Hp.
  destruct (0 <? last_num_frames gf).
  - apply obind_some in Hp as (cb & Hm & Hp).
    apply memcpy_within_inv in Hm as (tail & Htail & Hcb).
    rewrite float_count in Htail by lia.
    apply obind_some in Hp as ([data left] & Hpop & Hp).
    apply obind_some in Hp as (cb' & Hcb' & Hp).
    injection Hp as <-. cbn [copy_buffer input_buffer output_buffer].
    rewrite wrap64_small in Hpop by (unfold sizeof_float; lia).
    apply pop_front_inv in Hpop as (-> & -> & Hle); [|lia].
    apply write_range_inv in Hcb, Hcb'. cbn [Z.to_nat firstn app] in Hcb.
    pose proof (read_range_length _ _ _ _ Htail) as Hlen.
    exists tail, (firstn (Z.to_nat num_new) (input_buffer ch)). eexists.
    split; [exact Htail|]. split; [|split; [|split; [|reflexivity]]].
    + rewrite Hcb', Hcb, firstn_app_le by lia.
      rewrite firstn_all2 by lia. rewrite <- app_assoc. reflexivity.
    + symmetry. apply firstn_skipn.
    + rewrite length_app, length_firstn. lia.
  - apply obind_some in Hp as ([data left] & Hpop & Hp).
    apply obind_some in Hp as (cb' & Hcb' & Hp).
    injection Hp as <-. cbn [copy_buffer input_buffer output_buffer].
    rewrite (wrap64_small (num_new + _)) in Hpop by lia.
    rewrite wrap64_small in Hpop by (unfold sizeof_float; lia).
    apply pop_front_inv in Hpop as (-> & -> & Hle); [|lia].
    apply write_range_inv in Hcb'. cbn [Z.to_nat firstn app] in Hcb'.
    exists [], (firstn (Z.to_nat (num_new + overlap_frames gf)) (input_buffer ch)).
    eexists. split; [reflexivity|]. split; [|split; [|split; [|reflexivity]]].
    + cbn [app]. exact Hcb'.
    + symmetry. apply firstn_skipn.
    + cbn [app]. rewrite length_firstn. lia.
Qed.

(** A cycle leaves the overlap alone or sets it from [adapt_overlap_ms]. *)
Lemma process_audio_from_buffer_buffers gf skipped duration gf' :
  process_audio_from_buffer gf skipped duration = Some gf' ->
  sample_rate gf' = sample_rate gf
  /\ length (buffers gf') = length (buffers gf)
  /\ Forall2 (fun ch ch' => length (copy_buffer ch') = length (copy_buffer ch))
       (buffers gf) (buffers gf').
Proof.
  unfold process_audio_from_buffer, assemble. intros Hp.
  destruct (drain_infos _ (info_buffer gf) 0 0) as [[n ts] q] eqn:Hd.
  apply obind_some in Hp as (((gf1 & n1) & ts1) & Ha & Hp).
  apply obind_some in Ha as (bufs & Hpop & Ha).
  destruct (channels_fit gf); [|discriminate].
  injection Ha as <- <- <-.
  apply obind_some in Hp as (_ & _ & Hp).
  apply obind_some in Hp as (gf2 & Hpub & Hp).
  unfold publish in Hpub. simpl in Hpub.
  apply obind_some in Hpub as (bufs2 & Hpub & Hgf2).
  destruct (channels_fit _); [|discriminate].
  injection Hgf2 as <-. injection Hp as <-.
  apply mapM_Forall2 in Hpop, Hpub.
  pose proof (Forall2_compose _ _ _ _ _ Hpop Hpub) as Hf.
  assert (Hf' : Forall2 (fun ch ch' : channel_buffers sample =>
                           length (copy_buffer ch') = length (copy_buffer ch))
                  (buffers gf) bufs2).
  { eapply Forall2_impl; [|exact Hf].
    intros ch ch' (ch1 & H1 & H2). cbn beta in *.
    apply pop_input_copy_length in H1.
    unfold publish_channel in H2. apply obind_some in H2 as (data & _ & H2).
    injection H2 as <-. exact H1. }
  unfold adapt. destruct (_ || _); cbn [sample_rate buffers];
    (split; [reflexivity|]; split; [|exact Hf']);
    symmetry; exact (Forall2_length Hf').
Qed.
End CycleLayout.

(** X2.  A cycle keeps the window length, the number of channels and the
    capacity of every analysis buffer, and records a valid length between
    the overlap it used and that capacity.  So a cycle from a ready state
    that does not raise the overlap ends in a ready state. *)
Theorem cycle_keeps_ready {sample : Type} (gf gf' : cleanstream_data sample)
    (skipped : bool) (duration : Z) :
  ready gf ->
  process_audio_from_buffer gf skipped duration = Some gf' ->
  0 <= overlap_frames gf' <= overlap_frames gf ->
  ready gf'
  /\ length (buffers gf') = length (buffers gf)
  /\ overlap_frames gf <= last_num_frames gf' <= frames gf.
Proof.
  intros (Hov & Hfr & Hlast & Hcopy) Hp Hov'.
  pose proof (process_audio_from_buffer_buffers _ _ _ _ Hp) as (_ & Hlen & Hcl).
  apply process_audio_from_buffer_inv in Hp
    as (n & ts & q & bufs & Hd & _ & _ & _ & _ & Hl & Hf).
  rewrite wrap64_small in Hd by lia.
  apply drain_infos_below_target in Hd as [Hn0 Hn]; [|lia|lia].
  rewrite wrap64_small in Hl by lia.
  assert (Hb : overlap_frames gf <= last_num_frames gf' <= frames gf) by lia.
  split; [|split; [exact Hlen | exact Hb]].
  unfold ready. rewrite Hf. repeat split; try lia.
  eapply Forall2_transfer; [exact Hcl | exact Hcopy |].
  intros ch ch' Hlc Hc. cbn beta in *. lia.
Qed.

Lemma cycle_keeps_ready_witness :
  ready second_window_state
  /\ length (buffers second_window_state) = length (buffers first_window_state)
  /\ overlap_frames first_window_state <= last_num_frames second_window_state
     <= frames first_window_state.
Proof.
  apply (cycle_keeps_ready first_window_state second_window_state true 0).
  - unfold ready. vm_compute. repeat split; try discriminate; auto.
  - vm_compute. reflexivity.
  - vm_compute. split; discriminate.
Defined.

(** X3.  The analysis window that a cycle assembles for a channel is what
    the previous window held back (its last [overlap_frames] valid
    samples; nothing before the first window) followed by samples taken
    from the front of the channel's input buffer, in order; its valid
    length is the recorded [last_num_frames]. *)
Theorem window_layout {sample : Type} (gf gf' : cleanstream_data sample)
    (skipped : bool) (duration : Z) :
  0 <= overlap_frames gf < 2 ^ 32 ->
  process_audio_from_buffer gf skipped duration = Some gf' ->
  Forall2 (fun ch ch' =>
             exists look fresh rest,
               lookahead gf ch = Some look
               /\ copy_buffer ch' = (look ++ fresh) ++ rest
               /\ input_buffer ch = fresh ++ input_buffer ch'
               /\ Z.of_nat (length (look ++ fresh)) = last_num_frames gf')
    (buffers gf) (buffers gf').
Proof.
  intros Hov Hp.
  apply process_audio_from_buffer_inv in Hp
    as (n & ts & q & bufs & Hd & Hpop & Hpub & _ & _ & Hl & _).
  apply drain_infos_range in Hd; [|lia].
  rewrite wrap64_small in Hl by lia.
  eapply Forall2_impl; [|exact (Forall2_compose _ _ _ _ _ Hpop Hpub)].
  intros ch ch' (ch1 & H1 & H2). cbn beta in *.
  apply pop_input_layout in H1 as (look & fresh & rest & Hlook & Hc & Hi & Hlen & _);
    [|lia|lia].
  unfold publish_channel in H2. apply obind_some in H2 as (data & _ & H2).
  injection H2 as <-. cbn [copy_buffer input_buffer].
  exists look, fresh, rest. repeat split; auto. lia.
Qed.

Lemma window_layout_witness :
  Forall2 (fun ch ch' =>
             exists look fresh rest,
               lookahead first_window_state ch = Some look
               /\ copy_buffer ch' = (look ++ fresh) ++ rest
               /\ input_buffer ch = fresh ++ input_buffer ch'
               /\ Z.of_nat (length (look ++ fresh))
                  = last_num_frames second_window_state)
    (buffers first_window_state) (buffers second_window_state).
Proof.
  apply (window_layout first_window_state second_window_state true 0).
  - vm_compute. split; [discriminate | reflexivity].
  - vm_compute. reflexivity.
Defined.

Lemma firstn_plus {A : Type} (c d : nat) (l : list A) :
  firstn (c + d) l = firstn c l ++ firstn d (skipn c l).
Proof.
  revert l. induction c as [|c IH]; intros l; [reflexivity|].
  destruct l as [|x l]; cbn [Nat.add firstn skipn app].
  - now rewrite firstn_nil.
  - now rewrite IH.
Qed.

(** X4.  A cycle never reorders samples, and it loses or repeats some only
    by changing the overlap.  Per channel, with the part held back for the
    next window read as the last [overlap_frames] valid samples of the
    window, and for a new overlap that fits the valid length: what has
    been published, then what is held back, then what is still queued is
    the same stream before and after the cycle, but for two things.  A
    cycle that lowers the overlap drops the samples between the published
    head and the shorter part held back, as many as the overlap lost in
    frames.  A cycle that raises the overlap holds back, in front of what
    it would have kept, the samples it has just published last, as many as
    the overlap gained: the next window starts with them and they are
    published twice. *)
Theorem stream_accounting {sample : Type} (gf gf' : cleanstream_data sample)
    (skipped : bool) (duration : Z) :
  0 <= overlap_frames gf < 2 ^ 32 ->
  process_audio_from_buffer gf skipped duration = Some gf' ->
  0 <= overlap_frames gf' <= last_num_frames gf' ->
  Forall2 (fun ch ch' =>
             exists look dropped published repeated kept,
               lookahead gf ch = Some look
               /\ lookahead gf' ch' = Some (repeated ++ kept)
               /\ output_buffer ch' = published ++ repeated
               /\ Z.of_nat (length dropped)
                  = Z.max 0 (overlap_frames gf - overlap_frames gf')
               /\ Z.of_nat (length repeated)
                  = Z.max 0 (overlap_frames gf' - overlap_frames gf)
               /\ output_buffer ch' ++ dropped ++ kept ++ input_buffer ch'
                  = output_buffer ch ++ look ++ input_buffer ch)
    (buffers gf) (buffers gf').
Proof.
  intros Hov Hp Hov'.
  apply process_audio_from_buffer_inv in Hp
    as (n & ts & q & bufs & Hd & Hpop & Hpub & _ & _ & Hl & _).
  apply drain_infos_range in Hd; [|lia].
  rewrite wrap64_small in Hl by lia. rewrite Hl in Hov'.
  eapply Forall2_impl; [|exact (Forall2_compose _ _ _ _ _ Hpop Hpub)].
  intros ch ch' (ch1 & H1 & H2). cbn beta in *.
  apply pop_input_layout in H1 as (look & fresh & rest & Hlook & Hc & Hi & Hlen & Ho);
    [|lia|lia].
  unfold publish_channel in H2. apply obind_some in H2 as (data & Hdata & H2).
  injection H2 as <-. cbn [copy_buffer input_buffer output_buffer].
  set (W := look ++ fresh) in *.
  set (a := Z.to_nat n).
  set (c := Z.to_nat (n + overlap_frames gf - overlap_frames gf')).
  assert (Hdata' : data = firstn a W).
  { unfold read_range in Hdata. destruct (_ && _); [|discriminate].
    injection Hdata as <-. cbn [Z.to_nat skipn]. rewrite Hc.
    apply firstn_app_le. lia. }
  assert (Hlook' : lookahead gf' ch1 = Some (skipn c W)).
  { unfold lookahead. rewrite Hl.
    destruct (Z.ltb_spec 0 (n + overlap_frames gf)) as [Hpos|Hzero].
    - unfold read_range.
      destruct (Z.leb_spec 0 (n + overlap_frames gf - overlap_frames gf')); [|lia].
      destruct (Z.leb_spec 0 (overlap_frames gf')); [|lia].
      destruct (Z.leb_spec (n + overlap_frames gf - overlap_frames gf'
                            + overlap_frames gf')
                  (Z.of_nat (length (copy_buffer ch1)))) as [_|Hbad].
      2:{ rewrite Hc, length_app in Hbad. lia. }
      cbn [andb]. f_equal. rewrite Hc. fold c.
      apply slice_app. lia.
    - assert (HW : W = []) by (destruct W; [reflexivity | cbn in Hlen; lia]).
      rewrite HW. now destruct c. }
  exists look, (firstn (c - a) (skipn a W)), (output_buffer ch ++ firstn (Nat.min a c) W),
    (firstn (a - c) (skipn c W)), (skipn (Nat.max a c) W).
  split; [exact Hlook|].
  destruct (le_lt_dec a c) as [Hac|Hca].
  - replace (a - c)%nat with O by lia.
    replace (Nat.max a c) with c by lia. replace (Nat.min a c) with a by lia.
    cbn [firstn app]. rewrite app_nil_r.
    split; [unfold lookahead in *; cbn [copy_buffer] in *; exact Hlook'|].
    split; [rewrite Ho, Hdata'; reflexivity|].
    split; [rewrite length_firstn, length_skipn; lia|].
    split; [cbn [length]; lia|].
    rewrite Ho, Hdata', Hi, <- !app_assoc. f_equal.
    rewrite !app_assoc. f_equal. rewrite <- app_assoc.
    replace c with (a + (c - a))%nat at 2 by lia.
    apply three_parts.
  - replace (c - a)%nat with O by lia.
    replace (Nat.max a c) with a by lia. replace (Nat.min a c) with c by lia.
    cbn [firstn app].
    assert (Hsplit : firstn a W = firstn c W ++ firstn (a - c) (skipn c W)).
    { replace a with (c + (a - c))%nat at 1 by lia. apply firstn_plus. }
    split.
    { unfold lookahead in *. cbn [copy_buffer] in *. rewrite Hlook'. f_equal.
      rewrite <- (firstn_skipn (a - c) (skipn c W)) at 1. f_equal.
      rewrite skipn_skipn. f_equal. lia. }
    split; [rewrite Ho, Hdata', Hsplit, app_assoc; reflexivity|].
    split; [cbn [length]; lia|].
    split; [rewrite length_firstn, length_skipn; lia|].
    rewrite Ho, Hdata', Hi, <- !app_assoc. f_equal.
    rewrite !app_assoc. f_equal. apply firstn_skipn.
Qed.

Lemma stream_accounting_witness :
  match process_audio_from_buffer long_packet_state false 100 with
  | Some gf' =>
      overlap_frames gf' = overlap_frames long_packet_state + 160
      /\ Forall2 (fun ch ch' =>
                    exists look dropped published repeated kept,
                      lookahead long_packet_state ch = Some look
                      /\ lookahead gf' ch' = Some (repeated ++ kept)
                      /\ output_buffer ch' = published ++ repeated
                      /\ Z.of_nat (length dropped)
                         = Z.max 0 (overlap_frames long_packet_state
                                    - overlap_frames gf')
                      /\ Z.of_nat (length repeated)
                         = Z.max 0 (overlap_frames gf'
                                    - overlap_frames long_packet_state)
                      /\ output_buffer ch' ++ dropped ++ kept ++ input_buffer ch'
                         = output_buffer ch ++ look ++ input_buffer ch)
           (buffers long_packet_state) (buffers gf')
  | None => False
  end.
Proof.
  assert (Hg : match process_audio_from_buffer long_packet_state false 100 with
               | Some gf' =>
                   overlap_frames gf' = overlap_frames long_packet_state + 160
                   /\ 0 <= overlap_frames gf' <= last_num_frames gf'
               | None => False
               end).
  { vm_compute. split; [reflexivity|]. split; discriminate. }
  destruct (process_audio_from_buffer long_packet_state false 100) as [gf'|] eqn:Hp;
    [|contradiction].
  destruct Hg as [Hraised Hfits]. split; [exact Hraised|].
  apply (stream_accounting long_packet_state gf' false 100).
  - vm_compute. split; [discriminate | reflexivity].
  - exact Hp.
  - exact Hfits.
Defined.

(** X5.  A packet at the head of the info queue that is at least as long
    as the new-frames target stalls the worker: the cycle takes no sample
    from any input buffer, sends the info to the back of the queue,
    publishes an empty packet stamped with that info's timestamp, and
    leaves the worker's guard as it was. *)
Theorem oversized_head_stalls {sample : Type} (gf gf' : cleanstream_data sample)
    (i : cleanstream_audio_info) (rest : list cleanstream_audio_info)
    (skipped : bool) (duration : Z) :
  info_buffer gf = i :: rest ->
  0 <= overlap_frames gf <= frames gf -> frames gf < 2 ^ 32 ->
  frames gf - overlap_frames gf <= info_frames i < 2 ^ 32 ->
  0 < last_num_frames gf ->
  process_audio_from_buffer gf skipped duration = Some gf' ->
  info_buffer gf' = rest ++ [i]
  /\ info_out_buffer gf' = info_out_buffer gf ++ [mk_info 0 (info_timestamp i)]
  /\ Forall2 (fun ch ch' => input_buffer ch' = input_buffer ch
                            /\ output_buffer ch' = output_buffer ch)
       (buffers gf) (buffers gf')
  /\ enough_input gf' = enough_input gf.
Proof.
  intros Hq Hov Hfr Hi Hlast Hp.
  apply process_audio_from_buffer_inv in Hp
    as (n & ts & q & bufs & Hd & Hpop & Hpub & Hq' & Hout & _ & Hf).
  rewrite Hq in Hd. cbn [drain_infos] in Hd.
  rewrite wrap64_small, Z.add_0_l, wrap32_small, Z.sub_diag in Hd by lia.
  destruct (Z.geb_spec (info_frames i) (frames gf - overlap_frames gf)); [|lia].
  cbn [Z.eqb] in Hd. injection Hd as <- <- <-.
  change (wrap32 0) with 0 in *.
  assert (Hb : Forall2 (fun ch ch' => input_buffer ch' = input_buffer ch
                                      /\ output_buffer ch' = output_buffer ch)
                 (buffers gf) (buffers gf')).
  { eapply Forall2_impl; [|exact (Forall2_compose _ _ _ _ _ Hpop Hpub)].
    intros ch ch' (ch1 & H1 & H2). cbn beta in *.
    apply pop_input_layout in H1
      as (look & fresh & left & Hlook & _ & Hin & Hlen & Ho); [|lia|lia].
    unfold lookahead in Hlook.
    destruct (Z.ltb_spec 0 (last_num_frames gf)); [|lia].
    apply read_range_length in Hlook. rewrite length_app in Hlen.
    assert (fresh = []) as -> by (destruct fresh; [reflexivity | cbn in Hlen; lia]).
    apply publish_channel_inv in H2 as (data & Hdata & Ho' & Hin').
    apply read_range_length in Hdata.
    assert (data = []) as -> by (destruct data; [reflexivity | cbn in Hdata; lia]).
    rewrite app_nil_r in Ho'. cbn [app] in Hin. split; congruence. }
  repeat split; auto.
  unfold enough_input. rewrite Hf.
  destruct Hb as [|ch ch' l l' [Hin _] _]; [reflexivity | now rewrite Hin].
Qed.

Lemma oversized_head_stalls_witness :
  let gf := mk_data 1000 10 4 4 8
              [mk_channel [1; 2; 3; 4; 5; 6; 7; 8; 0; 0]
                 [9; 10; 11; 12; 13; 14; 15; 16; 17; 18] [1; 2; 3; 4]]
              [mk_info 7 200; mk_info 3 201] [mk_info 4 100] true (f32.lit 3 4) in
  let gf' := mk_data 1000 10 4 4 4
               [mk_channel [5; 6; 7; 8; 5; 6; 7; 8; 0; 0]
                  [9; 10; 11; 12; 13; 14; 15; 16; 17; 18] [1; 2; 3; 4]]
               [mk_info 3 201; mk_info 7 200] [mk_info 4 100; mk_info 0 200]
               true (f32.lit 3 4) in
  info_buffer gf' = [mk_info 3 201] ++ [mk_info 7 200]
  /\ info_out_buffer gf' = info_out_buffer gf ++ [mk_info 0 200]
  /\ Forall2 (fun ch ch' => input_buffer ch' = input_buffer ch
                            /\ output_buffer ch' = output_buffer ch)
       (buffers gf) (buffers gf')
  /\ enough_input gf' = enough_input gf.
Proof.
  apply (oversized_head_stalls _ _ (mk_info 7 200) [mk_info 3 201] true 0);
    vm_compute; repeat split; try discriminate; reflexivity.
Defined.

(** ** The output queue and the real-time callback *)

Section OutputQueue.
Context {sample : Type}.
Implicit Types gf : cleanstream_data sample.

Lemma push_channels_output (bufs : list (channel_buffers sample)) :
  forall data nframes bufs',
    push_channels bufs data nframes = Some bufs' ->
    Forall2 (fun ch ch' => output_buffer ch' = output_buffer ch) bufs bufs'.
Proof.
  induction bufs as [|ch bufs IH]; simpl; intros data n bufs' Hp.
  - injection Hp as <-. constructor.
  - destruct data as [|d data]; [discriminate|].
    apply obind_some in Hp as (new & Hr & Hp).
    apply obind_some in Hp as (rest & Hrest & Hp).
    injection Hp as <-. constructor; [reflexivity | eauto].
Qed.

Lemma push_channels_some (bufs : list (channel_buffers sample)) :
  forall data nframes,
    0 <= nframes -> (length bufs <= length data)%nat ->
    Forall (fun d => nframes <= Z.of_nat (length d)) data ->
    exists bufs', push_channels bufs data nframes = Some bufs'.
Proof.
  induction bufs as [|ch bufs IH]; simpl; intros data n Hn Hlen Hd; [eauto|].
  destruct data as [|d data]; [simpl in Hlen; lia|].
  inversion Hd as [|? ? Hd1 Hd2]; subst.
  destruct (read_range_some d 0 n) as [new ->]; try lia. cbn [obind].
  destruct (IH data n) as [rest ->]; auto; [simpl in Hlen; lia|].
  cbn [obind]. eauto.
Qed.

Lemma push_audio_out_consistent gf audio g1 :
  push_audio gf audio = Some g1 -> out_consistent gf -> out_consistent g1.
Proof.
  unfold push_audio. intros Hp [Hi Hc].
  apply obind_some in Hp as (bufs & Hb & Hp). injection Hp as <-.
  destruct (channels_fit gf); [|discriminate].
  apply push_channels_output in Hb.
  split; cbn [info_out_buffer buffers]; [exact Hi|].
  eapply Forall2_transfer; [exact Hb | exact Hc |].
  intros ch ch' Ho Hch. cbn beta in *. now rewrite Ho.
Qed.

(** The pull of one channel under the output discipline. *)
Lemma pull_channel_some (nframes total : Z) (ch : channel_buffers sample) :
  0 <= nframes < 2 ^ 32 -> 0 <= total ->
  (nframes + total) * sizeof_float
  = circlebuf.size sizeof_float (output_buffer ch) ->
  exists data rest,
    pull_channel nframes ch
    = Some (data, mk_channel (copy_buffer ch) (input_buffer ch) rest)
    /\ data = firstn (Z.to_nat nframes) (output_buffer ch)
    /\ total * sizeof_float = circlebuf.size sizeof_float rest.
Proof.
  intros Hn Ht Hsz. unfold pull_channel.
  unfold circlebuf.size, sizeof_float in Hsz.
  rewrite wrap64_small by (unfold sizeof_float; lia).
  rewrite pop_front_some by lia. cbn [obind].
  eexists _, _. split; [reflexivity|]. split; [reflexivity|].
  unfold circlebuf.size, sizeof_float. rewrite length_skipn. lia.
Qed.

Lemma pull_audio_some gf :
  out_consistent gf -> sample_rate gf <> 0 ->
  exists r, pull_audio gf = Some r
            /\ match r with
               | None => info_out_buffer gf = []
               | Some (out, gf') =>
                   out_consistent gf'
                   /\ exists i infos,
                        info_out_buffer gf = i :: infos
                        /\ info_out_buffer gf' = infos
                        /\ audio_frames out = info_frames i
                        /\ audio_timestamp out = info_timestamp i
                        /\ audio_data out
                           = map (fun ch => firstn (Z.to_nat (info_frames i))
                                              (output_buffer ch))
                               (buffers gf)
               end.
Proof.
  unfold out_consistent, pull_audio. intros [Hi Hc] Hrate.
  destruct (info_out_buffer gf) as [|i infos];
    [exists None; split; reflexivity|].
  destruct (Z.eqb_spec (sample_rate gf) 0) as [|_]; [contradiction|]. cbn [obind].
  inversion Hi as [|? ? Hi1 Hi2]; subst.
  pose proof (queued_frames_nonneg infos) as Hq.
  assert (Hq0 : 0 <= queued_frames infos).
  { apply Hq. eapply Forall_impl; [|exact Hi2]. intros; cbn beta in *; lia. }
  clear Hq. cbn [queued_frames fold_right] in Hc.
  fold (queued_frames infos) in Hc.
  assert (Hall : exists pulled,
             mapM (pull_channel (info_frames i)) (buffers gf) = Some pulled
             /\ map fst pulled
                = map (fun ch => firstn (Z.to_nat (info_frames i)) (output_buffer ch))
                    (buffers gf)
             /\ Forall (fun ch => queued_frames infos * sizeof_float
                                  = circlebuf.size sizeof_float (output_buffer ch))
                  (map snd pulled)).
  { induction Hc as [|ch l Hch _ IH]; cbn [mapM map]; [eauto|].
    destruct (pull_channel_some (info_frames i) (queued_frames infos) ch)
      as (data & rest & -> & -> & Hrest); auto.
    destruct IH as (pulled & -> & Hfst & Hsnd). cbn [obind].
    eexists. split; [reflexivity|]. cbn [map fst snd]. split; [now rewrite Hfst|].
    constructor; assumption. }
  destruct Hall as (pulled & -> & Hfst & Hsnd). cbn [obind].
  eexists. split; [reflexivity|]. cbn beta iota.
  split; [split; [exact Hi2 | exact Hsnd]|].
  exists i, infos. repeat split; auto.
Qed.

Lemma pull_audio_out_consistent gf out gf' :
  out_consistent gf -> pull_audio gf = Some (Some (out, gf')) -> out_consistent gf'.
Proof.
  intros Hc Hp.
  destruct (Z.eq_dec (sample_rate gf) 0) as [Hz|Hnz].
  - unfold pull_audio in Hp. destruct (info_out_buffer gf); [discriminate|].
    rewrite Hz in Hp. discriminate.
  - destruct (pull_audio_some gf Hc Hnz) as (r & Hr & Hspec).
    rewrite Hp in Hr. injection Hr as <-. exact (proj1 Hspec).
Qed.

Lemma process_audio_from_buffer_out_consistent gf skipped duration gf' :
  out_consistent gf ->
  process_audio_from_buffer gf skipped duration = Some gf' ->
  out_consistent gf'.
Proof.
  intros [Hi Hc] Hs.
  apply process_audio_from_buffer_inv in Hs
    as (n & ts & q & bufs & Hd & Hpop & Hpub & _ & Hout & _).
  apply drain_infos_range in Hd; [|lia].
  split.
  - rewrite Hout. apply Forall_app. split; [exact Hi | now constructor].
  - rewrite Hout.
    eapply Forall2_transfer;
      [exact (Forall2_compose _ _ _ _ _ Hpop Hpub) | exact Hc |].
    intros ch ch' (ch1 & H1 & H2) Hch. cbn beta in *.
    apply pop_input_output in H1.
    apply publish_channel_inv in H2 as (data & Hdata & Ho & _).
    apply read_range_length in Hdata.
    rewrite Ho, H1, queued_frames_app.
    unfold circlebuf.size, sizeof_float in *. rewrite length_app.
    cbn [queued_frames fold_right info_frames]. lia.
Qed.
End OutputQueue.

(** X6.  Every step of either thread keeps the output side in step: the
    bytes of each channel's output buffer are the sample size times the
    frames announced by the queued output infos, and every such info
    announces a [uint32_t] count. *)
Theorem out_consistency_run {sample : Type} (evs : list event) :
  forall gf gf' : cleanstream_data sample,
    out_consistent gf -> run gf evs = Some gf' -> out_consistent gf'.
Proof.
  induction evs as [|ev evs IH]; intros gf gf' Hc Hrun.
  - now injection Hrun as <-.
  - cbn [run] in Hrun. apply obind_some in Hrun as (g1 & Hs & Hrun).
    apply (IH g1); [|exact Hrun]. clear IH Hrun.
    destruct ev as [audio|skipped duration|resample engine duration];
      cbn [step] in Hs.
    + unfold cleanstream_filter_audio in Hs.
      destruct (whisper_context gf); cbn [negb] in Hs; [|now injection Hs as <-].
      destruct (push_audio gf audio) as [g0|] eqn:Hpush; [|discriminate].
      cbn [obind] in Hs.
      pose proof (push_audio_out_consistent _ _ _ Hpush Hc) as Hc0.
      destruct (pull_audio g0) as [r|] eqn:Hr; [|discriminate].
      cbn [obind] in Hs.
      destruct r as [[out g2]|]; cbn [option_map snd] in Hs; injection Hs as <-.
      * exact (pull_audio_out_consistent _ _ _ Hc0 Hr).
      * exact Hc0.
    + destruct (enough_input gf); [|now injection Hs as <-].
      exact (process_audio_from_buffer_out_consistent _ _ _ _ Hc Hs).
    + destruct (enough_input gf); [|now injection Hs as <-].
      apply process_audio_from_buffer_gated_inv in Hs
        as (gf1 & n & ts & verdict & gf0 & _ & _ & Hp & ->).
      exact (process_audio_from_buffer_out_consistent _ _ _ _ Hc Hp).
Qed.

Lemma out_consistency_run_witness :
  out_consistent second_window_state.
Proof.
  apply (out_consistency_run [Window true 0] first_window_state).
  - split; repeat constructor.
  - vm_compute. reflexivity.
Defined.

(** X7.  On a filter with at most two channels and a sample rate other
    than 0, the real-time callback never fails on a packet that brings the
    frames it announces for every channel, as long as the output side is
    in step: the pop of the oldest output packet always finds its bytes. *)
Theorem filter_audio_succeeds {sample : Type} (gf : cleanstream_data sample)
    (audio : obs_audio_data sample) :
  channels gf <= MAX_PREPROC_CHANNELS -> sample_rate gf <> 0 ->
  out_consistent gf -> well_formed_packet gf audio ->
  exists r gf', cleanstream_filter_audio gf audio = Some (r, gf').
Proof.
  intros Hch Hrate Hc (Hn & Hlen & Hd). unfold cleanstream_filter_audio.
  destruct (whisper_context gf); cbn [negb]; [|eauto].
  destruct (push_channels_some (buffers gf) (audio_data audio) (audio_frames audio))
    as [bufs Hb]; auto.
  assert (Hpush : exists g0, push_audio gf audio = Some g0 /\ sample_rate g0 = sample_rate gf).
  { unfold push_audio. replace (channels_fit gf) with true
      by (symmetry; apply Z.leb_le; exact Hch).
    rewrite Hb. cbn [obind]. eauto. }
  destruct Hpush as (g0 & Hpush & Hr0). rewrite Hpush. cbn [obind].
  destruct (pull_audio_some g0 (push_audio_out_consistent _ _ _ Hpush Hc))
    as (r & -> & _); [congruence|].
  cbn [obind]. destruct r as [[out g2]|]; eauto.
Qed.

Lemma filter_audio_succeeds_witness :
  exists r gf',
    cleanstream_filter_audio second_window_state (mk_audio [[15; 16]] 2 107)
    = Some (r, gf').
Proof.
  apply (filter_audio_succeeds second_window_state (mk_audio [[15; 16]] 2 107)).
  - vm_compute. discriminate.
  - discriminate.
  - split; repeat constructor; discriminate.
  - vm_compute. repeat split; try discriminate; auto.
    repeat constructor. discriminate.
Defined.

Lemma Forall2_map_eq {A B C : Type} (f : B -> C) (g : A -> C) (l : list A) (l' : list B) :
  Forall2 (fun a b => f b = g a) l l' -> map f l' = map g l.
Proof. induction 1; simpl; congruence. Qed.

Lemma Forall2_and_l {A B : Type} (R : A -> B -> Prop) (P : A -> Prop)
    (l : list A) (l' : list B) :
  Forall2 R l l' -> Forall P l -> Forall2 (fun a b => R a b /\ P a) l l'.
Proof.
  induction 1; intros HP; inversion HP; subst; constructor; auto.
Qed.

Lemma Forall2_map_r {A B : Type} (R : A -> B -> Prop) (g : A -> B) (l : list A) :
  Forall (fun a => R a (g a)) l -> Forall2 R l (map g l).
Proof. induction 1; simpl; constructor; auto. Qed.

(** A cycle that completes ran on at most two channels at a sample rate
    other than 0, and leaves both as they were. *)
Lemma process_audio_from_buffer_checks {sample : Type}
    (gf gf' : cleanstream_data sample) (skipped : bool) (duration : Z) :
  process_audio_from_buffer gf skipped duration = Some gf' ->
  channels gf' <= MAX_PREPROC_CHANNELS /\ sample_rate gf' <> 0.
Proof.
  intros Hp.
  pose proof (process_audio_from_buffer_buffers _ _ _ _ Hp) as (Hrate & Hlen & _).
  unfold channels. rewrite Hrate, Hlen. fold (channels gf).
  unfold process_audio_from_buffer, assemble in Hp.
  destruct (drain_infos _ (info_buffer gf) 0 0) as [[n ts] q].
  apply obind_some in Hp as (((gf1 & n1) & ts1) & Ha & Hp).
  apply obind_some in Ha as (bufs & Hpop & Ha).
  destruct (channels_fit gf) eqn:Hfit; [|discriminate].
  injection Ha as <- <- <-.
  apply obind_some in Hp as ([] & Hlog & _).
  unfold log_processing in Hlog. cbn [sample_rate] in Hlog.
  split; [now apply Z.leb_le|].
  destruct (Z.eqb_spec (sample_rate gf) 0); [discriminate | assumption].
Qed.

(** X8.  What the worker publishes is what the host pulls next: after a
    cycle on a state whose output side is empty, if the cycle leaves the
    inference context set (the engine did not throw), the next call of the
    callback returns one packet whose frame count and timestamp are those
    found by the drain and whose samples are, channel by channel, the head
    of the analysis window; the output side is empty again. *)
Theorem publish_then_pull {sample : Type} (gf g1 : cleanstream_data sample)
    (audio : obs_audio_data sample)
    (resample : list (list sample) -> Z -> list f32.t) (engine : whisper_full_outcome)
    (duration : Z) :
  info_out_buffer gf = [] ->
  Forall (fun ch => output_buffer ch = []) (buffers gf) ->
  process_audio_from_buffer_gated resample engine gf duration = Some g1 ->
  whisper_context g1 = true ->
  well_formed_packet g1 audio ->
  exists out g2,
    cleanstream_filter_audio g1 audio = Some (Output out, g2)
    /\ (audio_frames out, audio_timestamp out)
       = fst (drain_infos (wrap64 (frames gf - overlap_frames gf))
                (info_buffer gf) 0 0)
    /\ Forall2 (fun ch1 data =>
                  read_range (copy_buffer ch1) 0 (audio_frames out) = Some data)
         (buffers g1) (audio_data out)
    /\ info_out_buffer g2 = []
    /\ Forall (fun ch => output_buffer ch = []) (buffers g2).
Proof.
  intros Hout0 Hbuf0 Hg Hctx (Hn & Hlen & Hd).
  apply process_audio_from_buffer_gated_inv in Hg
    as (gf1 & n0 & ts0 & verdict & g0 & _ & _ & Hp & ->).
  cbn [set_whisper_context whisper_context buffers] in *.
  pose proof (process_audio_from_buffer_checks _ _ _ _ Hp) as [Hfit Hrate].
  apply process_audio_from_buffer_inv in Hp
    as (n & ts & q & bufs & Hdr & Hpop & Hpub & _ & Hout & _).
  rewrite Hdr. cbn [fst].
  pose proof (drain_infos_range _ _ 0 0 n ts q ltac:(lia) Hdr) as Hnr.
  rewrite Hout0 in Hout. cbn [app] in Hout.
  assert (Hch : Forall (fun ch1 => read_range (copy_buffer ch1) 0 n
                                   = Some (output_buffer ch1))
                  (buffers g0)).
  { eapply Forall2_transfer;
      [exact (Forall2_compose _ _ _ _ _ Hpop Hpub) | exact Hbuf0 |].
    intros ch ch' (ch1 & H1 & H2) Hch. cbn beta in *.
    apply pop_input_output in H1.
    apply publish_channel_inv in H2 as (data & Hdata & Ho & _).
    rewrite Ho, H1, Hch. exact Hdata. }
  set (g1 := set_whisper_context g0 (context_left verdict)).
  assert (Hc1 : out_consistent g1).
  { split; cbn [g1 set_whisper_context info_out_buffer buffers]; rewrite Hout;
      [constructor; [cbn; lia | constructor]|].
    eapply Forall_impl; [|exact Hch]. intros ch1 Hr. cbn beta in *.
    apply read_range_length in Hr.
    unfold circlebuf.size, sizeof_float. cbn [queued_frames fold_right info_frames].
    lia. }
  unfold cleanstream_filter_audio.
  replace (whisper_context g1) with true by (symmetry; exact Hctx). cbn [negb].
  destruct (push_channels_some (buffers g0) (audio_data audio) (audio_frames audio))
    as [bufs0 Hb]; auto.
  assert (Hpush : push_audio g1 audio
                  = Some (mk_data (sample_rate g1) (frames g1) (overlap_frames g1)
                            (overlap_ms g1) (last_num_frames g1) bufs0
                            (circlebuf.push_back (info_buffer g1)
                               [mk_info (audio_frames audio) (audio_timestamp audio)])
                            (info_out_buffer g1) (whisper_context g1)
                            (filler_p_threshold g1))).
  { unfold push_audio.
    replace (channels_fit g1) with true by (symmetry; apply Z.leb_le; exact Hfit).
    cbn [g1 set_whisper_context buffers]. rewrite Hb. reflexivity. }
  rewrite Hpush. cbn [obind].
  destruct (pull_audio_some _ (push_audio_out_consistent _ _ _ Hpush Hc1))
    as (r & -> & Hspec); [exact Hrate|].
  cbn [obind]. destruct r as [[out g2]|].
  2:{ cbn [g1 set_whisper_context info_out_buffer] in Hspec. rewrite Hout in Hspec.
      discriminate. }
  destruct Hspec as ([_ Hc2] & i & infos & Hi & Hi2 & Hf & Ht & Hdata).
  cbn [g1 set_whisper_context info_out_buffer buffers] in Hi, Hdata.
  rewrite Hout in Hi.
  injection Hi as <- <-. cbn [info_frames info_timestamp] in *.
  exists out, g2. split; [reflexivity|]. split; [congruence|].
  apply push_channels_output in Hb.
  assert (Hdata' : audio_data out = map (fun ch1 => output_buffer ch1) (buffers g0)).
  { rewrite Hdata. apply Forall2_map_eq.
    eapply Forall2_impl; [|exact (Forall2_and_l _ _ _ _ Hb Hch)].
    intros ch1 ch0 [Ho Hr]. cbn beta in *.
    apply read_range_length in Hr. rewrite Ho.
    apply firstn_all2. lia. }
  split; [|split; [exact Hi2|]].
  - rewrite Hdata', Hf. now apply Forall2_map_r.
  - rewrite Hi2 in Hc2. eapply Forall_impl; [|exact Hc2].
    intros ch Hsz. cbn beta in Hsz.
    unfold circlebuf.size, sizeof_float in Hsz. cbn [queued_frames fold_right] in Hsz.
    destruct (output_buffer ch); [reflexivity | cbn [length] in Hsz; lia].
Qed.

Lemma publish_then_pull_witness :
  match process_audio_from_buffer_gated resample_mono_16k (Returns 0 "" []) fed_state 5
  with
  | Some g1 =>
      exists out g2,
        cleanstream_filter_audio g1 (packet_of 16 4) = Some (Output out, g2)
        /\ (audio_frames out, audio_timestamp out)
           = fst (drain_infos (wrap64 (frames fed_state - overlap_frames fed_state))
                    (info_buffer fed_state) 0 0)
        /\ Forall2 (fun ch1 data =>
                      read_range (copy_buffer ch1) 0 (audio_frames out) = Some data)
             (buffers g1) (audio_data out)
        /\ info_out_buffer g2 = []
        /\ Forall (fun ch => output_buffer ch = []) (buffers g2)
  | None => False
  end.
Proof.
  assert (Hg : match process_audio_from_buffer_gated resample_mono_16k
                       (Returns 0 "" []) fed_state 5 with
               | Some g1 => whisper_context g1 = true
                            /\ length (buffers g1) = 1%nat
               | None => False
               end) by (vm_compute; split; reflexivity).
  destruct (process_audio_from_buffer_gated resample_mono_16k (Returns 0 "" [])
              fed_state 5) as [g1|] eqn:Hp; [|contradiction].
  destruct Hg as [Hctx Hlen].
  apply (publish_then_pull fed_state g1 (packet_of 16 4) resample_mono_16k
           (Returns 0 "" []) 5).
  - reflexivity.
  - repeat constructor.
  - exact Hp.
  - exact Hctx.
  - split; [cbn; lia|]. split; [rewrite Hlen; cbn; lia|].
    constructor; [|constructor]. vm_compute. discriminate.
Defined.

(** ** Further properties of the signal gate *)

(** X9.  In exact arithmetic the filter is a plain gain: it reads
    [pcmf32[i - 1]] after having overwritten it with its own output, so the
    difference it means to take cancels, and every sample but the first
    comes out multiplied by [alpha]. *)
Theorem high_pass_filter_is_gain (x0 : Q) (rest : list Q) (cutoff : Q) (rate : Z) :
  exists filtered,
    high_pass_filter (x0 :: rest) cutoff rate = Some (x0 :: filtered)
    /\ Forall2 Qeq filtered (map (Qmult (hpf_alpha cutoff rate)) rest).
Proof.
  eexists. split; [reflexivity|].
  generalize (hpf_alpha cutoff rate) as alpha. intros alpha.
  assert (Hloop : forall l y prev,
             (prev == y)%Q ->
             Forall2 Qeq (hpf_loop alpha y prev l) (map (Qmult alpha) l)).
  { induction l as [|x l IH]; intros y prev Hy; cbn [hpf_loop map]; constructor.
    - cbn. rewrite Hy. ring.
    - apply IH. reflexivity. }
  apply Hloop. reflexivity.
Qed.

Section NanIsSpeech.
Lemma f32_add_nan_r x : f32.add x S754_nan = S754_nan.
Proof. now destruct x. Qed.

Lemma f32_sub_nan_l x : f32.sub S754_nan x = S754_nan.
Proof. reflexivity. Qed.

Lemma f32_mul_nan_r x : f32.mul x S754_nan = S754_nan.
Proof. now destruct x. Qed.

Lemma hpf_loop_nan alpha (rest : list f32.t) :
  forall y prev, In S754_nan rest -> In S754_nan (hpf_loop alpha y prev rest).
Proof.
  induction rest as [|x rest IH]; intros y prev Hin; [contradiction|].
  cbn [hpf_loop]. destruct Hin as [->|Hin].
  - left. cbn. now rewrite f32_add_nan_r, f32_sub_nan_l, f32_mul_nan_r.
  - right. now apply IH.
Qed.

Lemma sum_abs_from_nan (l : list f32.t) :
  fold_left (fun energy x => a_add energy (a_abs x)) l S754_nan = S754_nan.
Proof. induction l as [|x l IH]; cbn [fold_left]; [reflexivity | exact IH]. Qed.

Lemma sum_abs_nan (l : list f32.t) :
  forall acc, In S754_nan l ->
    fold_left (fun energy x => a_add energy (a_abs x)) l acc = S754_nan.
Proof.
  induction l as [|x l IH]; intros acc Hin; [contradiction|].
  cbn [fold_left]. destruct Hin as [->|Hin]; [|now apply IH].
  cbn. rewrite f32_add_nan_r. apply sum_abs_from_nan.
Qed.
End NanIsSpeech.

(** X10.  A window that holds a sample which is not a number is always
    classified as speech, with or without the filter and whatever the
    threshold: the mean is then not a number and is below nothing. *)
Theorem vad_nan_is_speech (pcmf32 : list f32.t) (rate : Z)
    (vad_thold freq_thold : f32.t) :
  In S754_nan pcmf32 ->
  vad_simple pcmf32 rate vad_thold freq_thold = Some true.
Proof.
  intros Hin. unfold vad_simple.
  assert (Hf : exists filtered,
             (if a_ltb a_zero freq_thold
              then high_pass_filter pcmf32 freq_thold rate
              else Some pcmf32) = Some filtered
             /\ In S754_nan filtered).
  { destruct (a_ltb a_zero freq_thold); [|eauto].
    destruct pcmf32 as [|x0 rest]; [contradiction|].
    eexists. split; [reflexivity|].
    destruct Hin as [->|Hin]; [now left | right; now apply hpf_loop_nan]. }
  destruct Hf as (filtered & -> & Hnan). cbn [obind].
  unfold mean_abs, sum_abs. rewrite (sum_abs_nan _ _ Hnan). reflexivity.
Qed.

Lemma vad_nan_is_speech_witness :
  vad_simple [f32.zero; S754_nan; f32.zero] WHISPER_SAMPLE_RATE VAD_THOLD FREQ_THOLD
  = Some true.
Proof. apply vad_nan_is_speech. right. left. reflexivity. Defined.

(** X11.  The word boundary check reads outside the array exactly when
    the window is shorter than one 50 ms sub-window; from one sub-window
    on every read is inside, and the answer is the sub-window length or 0. *)
Theorem word_boundary_defined_iff {F : Type} `{Arith F}
    (pcmf32 : list F) (rate : Z) (thold : F) :
  let n_samples_window := wrap32 (rate * 50) / 1000 in
  let pcm32f_size := Z.of_nat (length pcmf32) in
  0 < n_samples_window -> pcm32f_size < 2 ^ 64 ->
  (n_samples_window <= pcm32f_size ->
   word_boundary_simple pcmf32 pcm32f_size rate thold = Some n_samples_window
   \/ word_boundary_simple pcmf32 pcm32f_size rate thold = Some 0)
  /\ (pcm32f_size < n_samples_window ->
      word_boundary_simple pcmf32 pcm32f_size rate thold = None).
Proof.
  intros n size Hn Hsize. unfold word_boundary_simple. fold n. fold size.
  unfold avg_energy_in_window, max_energy_in_window. split; intros Hle.
  - rewrite wrap64_small by (unfold size in *; lia).
    destruct (read_range_some pcmf32 0 n) as [w1 ->]; try (unfold size in *; lia).
    destruct (read_range_some pcmf32 (size - n) n) as [w2 ->];
      try (unfold size in *; lia).
    destruct (read_range_some pcmf32 n (size - n)) as [w3 ->];
      try (unfold size in *; lia).
    cbn [obind].
    rewrite (log_windows_ok pcmf32 n (size - n)); try (unfold size in *; lia).
    cbn [obind]. destruct (_ && _); auto.
  - unfold read_range at 1.
    destruct (Z.leb_spec (0 + n) (Z.of_nat (length pcmf32))) as [Hbad|_];
      [unfold size in *; lia|].
    now rewrite !andb_false_r.
Qed.

Lemma word_boundary_defined_iff_witness :
  (800 <= 2400 ->
   word_boundary_simple late_peak_window 2400 WHISPER_SAMPLE_RATE (f32.lit 1 4)
   = Some 800
   \/ word_boundary_simple late_peak_window 2400 WHISPER_SAMPLE_RATE (f32.lit 1 4)
      = Some 0)
  /\ (2400 < 800 ->
      word_boundary_simple late_peak_window 2400 WHISPER_SAMPLE_RATE (f32.lit 1 4)
      = None).
Proof.
  apply (word_boundary_defined_iff late_peak_window WHISPER_SAMPLE_RATE (f32.lit 1 4));
    vm_compute; reflexivity.
Defined.

(** Below one sub-window the first read of the word boundary check leaves
    the array. *)
Lemma word_boundary_simple_none {F : Type} `{Arith F}
    (pcmf32 : list F) (pcm32f_size rate : Z) (thold : F) :
  Z.of_nat (length pcmf32) < wrap32 (rate * 50) / 1000 ->
  word_boundary_simple pcmf32 pcm32f_size rate thold = None.
Proof.
  intros Hlt. unfold word_boundary_simple, avg_energy_in_window.
  unfold read_range at 1.
  destruct (Z.leb_spec (0 + wrap32 (rate * 50) / 1000) (Z.of_nat (length pcmf32)));
    [lia|].
  now rewrite !andb_false_r.
Qed.

(** X20.  The signal gate reads outside the resampled window exactly when
    the window is empty, or is classified as speech and is shorter than
    one 50 ms sub-window, 800 samples at 16 kHz: [vad_simple] reads the
    first sample of any window, and [word_boundary_simple] is called on
    every window classified as speech, whatever its length.  A window
    classified as silence is skipped without such a read. *)
Theorem signal_gate_defined (context : bool) (threshold : f32.t)
    (output0 : list f32.t) (engine : whisper_full_outcome) :
  Z.of_nat (length output0) < 2 ^ 32 ->
  (signal_gate context threshold output0 engine = None
   <-> output0 = []
       \/ (vad_simple output0 WHISPER_SAMPLE_RATE VAD_THOLD FREQ_THOLD = Some true
           /\ Z.of_nat (length output0) < 800))
  /\ (vad_simple output0 WHISPER_SAMPLE_RATE VAD_THOLD FREQ_THOLD = Some false ->
      signal_gate context threshold output0 engine
      = Some (mk_verdict false true context)).
Proof.
  intros Hlen. split.
  2:{ intros Hv. unfold signal_gate. now rewrite Hv. }
  destruct output0 as [|x0 rest].
  { split; [now left | reflexivity]. }
  unfold signal_gate.
  destruct (vad_simple (x0 :: rest) WHISPER_SAMPLE_RATE VAD_THOLD FREQ_THOLD)
    as [speech|] eqn:Hv.
  2:{ unfold vad_simple in Hv. change (a_ltb a_zero FREQ_THOLD) with true in Hv.
      cbn [high_pass_filter obind] in Hv. destruct (a_ltb _ _); discriminate. }
  cbn [obind]. destruct speech.
  2:{ split; [discriminate | intros [Hnil|[Hs _]]; discriminate]. }
  cbn [high_pass_filter obind].
  set (filtered := x0 :: hpf_loop _ x0 x0 rest).
  assert (Hfl : length filtered = length (x0 :: rest)).
  { unfold filtered. cbn [length]. now rewrite hpf_loop_length. }
  destruct (Z.lt_ge_cases (Z.of_nat (length (x0 :: rest))) 800) as [Hshort|Hlong].
  - rewrite word_boundary_simple_none
      by (change (wrap32 (WHISPER_SAMPLE_RATE * 50) / 1000) with 800; rewrite Hfl; lia).
    split; [intros _; right; split; [reflexivity | exact Hshort] | reflexivity].
  - rewrite <- Hfl.
    destruct (word_boundary_simple_some filtered WHISPER_SAMPLE_RATE (f32.lit 1 4))
      as [word_boundary ->].
    + reflexivity.
    + change (wrap32 (WHISPER_SAMPLE_RATE * 50) / 1000) with 800. rewrite Hfl. lia.
    + cbn [obind]. split.
      * destruct (0 <? word_boundary); [|discriminate].
        destruct (run_whisper_inference_on context engine threshold). discriminate.
      * intros [Hnil|[_ Hs]]; [discriminate | lia].
Qed.

Lemma signal_gate_defined_witness :
  (signal_gate true (f32.lit 3 4) (repeat (f32.lit 1 2) 112) (Returns 0 "" []) = None
   <-> repeat (f32.lit 1 2) 112 = []
       \/ (vad_simple (repeat (f32.lit 1 2) 112) WHISPER_SAMPLE_RATE VAD_THOLD FREQ_THOLD
           = Some true
           /\ Z.of_nat (length (repeat (f32.lit 1 2) 112)) < 800))
  /\ (vad_simple (repeat (f32.lit 1 2) 112) WHISPER_SAMPLE_RATE VAD_THOLD FREQ_THOLD
      = Some false ->
      signal_gate true (f32.lit 3 4) (repeat (f32.lit 1 2) 112) (Returns 0 "" [])
      = Some (mk_verdict false true true)).
Proof.
  apply (signal_gate_defined true (f32.lit 3 4) (repeat (f32.lit 1 2) 112)
           (Returns 0 "" [])).
  vm_compute. reflexivity.
Defined.

Lemma signal_gate_context (context : bool) (threshold : f32.t) (output0 : list f32.t)
    (engine : whisper_full_outcome) (verdict : gate_verdict) :
  signal_gate context threshold output0 engine = Some verdict ->
  (context_left verdict = true -> context = true)
  /\ (engine <> Throws -> context_left verdict = context).
Proof.
  unfold signal_gate. intros Hg.
  apply obind_some in Hg as (speech & _ & Hg).
  destruct speech; [|injection Hg as <-; now split].
  apply obind_some in Hg as (filtered & _ & Hg).
  apply obind_some in Hg as (word_boundary & _ & Hg).
  destruct (0 <? word_boundary); [|injection Hg as <-; now split].
  unfold run_whisper_inference_on in Hg.
  destruct context, engine; cbn in Hg; injection Hg as <-; cbn;
    split; congruence.
Qed.

Lemma assemble_context {sample : Type} (gf gf1 : cleanstream_data sample)
    (num_new start_timestamp : Z) :
  assemble gf = Some (gf1, num_new, start_timestamp) ->
  whisper_context gf1 = whisper_context gf.
Proof.
  unfold assemble. destruct (drain_infos _ _ 0 0) as [[n ts] q]. intros Ha.
  apply obind_some in Ha as (bufs & _ & Ha). now injection Ha as <- _ _.
Qed.

(** X21.  A cycle never sets the inference context and leaves it as it
    was unless the engine throws; a cycle in which the engine throws still
    publishes its window.  Once the context is cleared, the real-time
    callback hands every packet back as it came and touches neither
    queue, so what the worker has published is not pulled. *)
Theorem context_cleared_by_fault_only {sample : Type} (gf g1 : cleanstream_data sample)
    (resample : list (list sample) -> Z -> list f32.t) (engine : whisper_full_outcome)
    (duration : Z) :
  process_audio_from_buffer_gated resample engine gf duration = Some g1 ->
  (whisper_context g1 = true -> whisper_context gf = true)
  /\ (engine <> Throws -> whisper_context g1 = whisper_context gf)
  /\ (exists num_new start_timestamp,
        info_out_buffer g1 = info_out_buffer gf ++ [mk_info num_new start_timestamp])
  /\ (whisper_context g1 = false ->
      forall audio, cleanstream_filter_audio g1 audio = Some (PassThrough, g1)).
Proof.
  intros Hg.
  apply process_audio_from_buffer_gated_inv in Hg
    as (gf1 & n0 & ts0 & verdict & g0 & Ha & Hgate & Hp & ->).
  apply assemble_context in Ha.
  apply signal_gate_context in Hgate as [Hset Hkeep]. rewrite Ha in *.
  apply process_audio_from_buffer_inv in Hp
    as (n & ts & q & bufs & _ & _ & _ & _ & Hout & _).
  cbn [set_whisper_context whisper_context info_out_buffer].
  split; [exact Hset|]. split; [exact Hkeep|]. split; [eauto|].
  intros Hctx audio. unfold cleanstream_filter_audio.
  cbn [set_whisper_context whisper_context]. now rewrite Hctx.
Qed.

Lemma context_cleared_by_fault_only_witness :
  match process_audio_from_buffer_gated resample_mono_16k Throws word_state 5 with
  | Some g1 =>
      ((whisper_context g1 = true -> whisper_context word_state = true)
       /\ (Throws <> Throws -> whisper_context g1 = whisper_context word_state)
       /\ (exists num_new start_timestamp,
             info_out_buffer g1
             = info_out_buffer word_state ++ [mk_info num_new start_timestamp])
       /\ (whisper_context g1 = false ->
           forall audio, cleanstream_filter_audio g1 audio = Some (PassThrough, g1)))
      /\ whisper_context g1 = false
  | None => False
  end.
Proof.
  assert (Hg : match process_audio_from_buffer_gated resample_mono_16k Throws
                       word_state 5 with
               | Some g1 => whisper_context g1 = false
               | None => False
               end) by (vm_compute; reflexivity).
  destruct (process_audio_from_buffer_gated resample_mono_16k Throws word_state 5)
    as [g1|] eqn:Hp; [|contradiction].
  split; [|exact Hg].
  exact (context_cleared_by_fault_only word_state g1 resample_mono_16k Throws 5 Hp).
Defined.

(** ** The log timestamp, the speaker layout and the configuration *)

Lemma wrap_int_small (z : Z) : - 2 ^ 31 <= z < 2 ^ 31 -> wrap_int z = z.
Proof. intros Hz. unfold wrap_int. rewrite Z.mod_small; lia. Qed.

Lemma format_d_two (v : Z) : 0 <= v < 100 -> format_d 2 v = two_digits v.
Proof.
  intros Hv. apply String.eqb_eq.
  apply (all_from_spec 100 (fun v => String.eqb (format_d 2 v) (two_digits v)) 0);
    [vm_compute; reflexivity | lia].
Qed.

Lemma format_d_three (v : Z) :
  0 <= v < 100 -> format_d 3 v = String "0" (two_digits v).
Proof.
  intros Hv. apply String.eqb_eq.
  apply (all_from_spec 100
           (fun v => String.eqb (format_d 3 v) (String "0" (two_digits v))) 0);
    [vm_compute; reflexivity | lia].
Qed.

(** X12.  For a time below 100 minutes, given in hundredths of a second,
    [to_timestamp] prints nine characters, minutes, seconds and hundredths,
    from which the time can be read back; the hundredths fill a field of
    three digits, so that its first digit is always 0. *)
Theorem to_timestamp_shape (t : Z) :
  0 <= t < 600000 ->
  to_timestamp t
  = (two_digits (t / 6000) ++ ":" ++ two_digits ((t / 100) mod 60)
     ++ ".0" ++ two_digits (t mod 100))%string
  /\ t = (t / 6000 * 60 + (t / 100) mod 60) * 100 + t mod 100.
Proof.
  intros Ht.
  assert (Hmin : t / 100 / 60 = t / 6000) by (rewrite Z.div_div by lia; reflexivity).
  assert (Hsec : t / 100 - t / 100 / 60 * 60 = (t / 100) mod 60)
    by (rewrite Z.mod_eq; lia).
  assert (Hcs : t - t / 100 * 100 = t mod 100) by (rewrite Z.mod_eq; lia).
  pose proof (Z.mod_pos_bound (t / 100) 60 ltac:(lia)) as Hs.
  pose proof (Z.mod_pos_bound t 100 ltac:(lia)) as Hc.
  assert (Hm : 0 <= t / 6000 < 100).
  { split; [apply Z.div_pos; lia | apply Z.div_lt_upper_bound; lia]. }
  split.
  - unfold to_timestamp.
    rewrite (Z.quot_div_nonneg t 100) by lia.
    rewrite (Z.quot_div_nonneg (t / 100) 60) by (try apply Z.div_pos; lia).
    rewrite Hsec, Hcs, Hmin.
    rewrite !wrap_int_small by lia.
    rewrite !format_d_two, format_d_three by lia.
    reflexivity.
  - rewrite <- Hmin.
    pose proof (Z.div_mod (t / 100) 60 ltac:(lia)).
    pose proof (Z.div_mod t 100 ltac:(lia)). lia.
Qed.

Lemma to_timestamp_shape_witness :
  to_timestamp 150
  = (two_digits (150 / 6000) ++ ":" ++ two_digits ((150 / 100) mod 60)
     ++ ".0" ++ two_digits (150 mod 100))%string
  /\ 150 = (150 / 6000 * 60 + (150 / 100) mod 60) * 100 + 150 mod 100.
Proof. apply (to_timestamp_shape 150). lia. Defined.

(** X13.  Among the channel counts of a [uint8_t], exactly 1 to 6 and 8
    have a speaker layout, and the layout of such a count stands for that
    count, so that two supported counts never share a layout. *)
Theorem convert_speaker_layout_supported (channels : Z) :
  0 <= channels < 256 ->
  (convert_speaker_layout channels <> SPEAKERS_UNKNOWN
   <-> 1 <= channels <= 6 \/ channels = 8)
  /\ (convert_speaker_layout channels <> SPEAKERS_UNKNOWN ->
      layout_channels (convert_speaker_layout channels) = channels).
Proof.
  intros Hc.
  pose proof (all_from_spec 256
                (fun c => Bool.eqb (layout_channels (convert_speaker_layout c) =? 0)
                            (negb (((1 <=? c) && (c <=? 6)) || (c =? 8)))
                          && ((layout_channels (convert_speaker_layout c) =? 0)
                              || (layout_channels (convert_speaker_layout c) =? c)))
                0 ltac:(vm_compute; reflexivity) channels ltac:(lia)) as Hall.
  cbn beta in Hall. apply andb_true_iff in Hall as [Hz Hl].
  apply Bool.eqb_prop in Hz.
  assert (Hu : convert_speaker_layout channels = SPEAKERS_UNKNOWN
               <-> layout_channels (convert_speaker_layout channels) = 0).
  { destruct (convert_speaker_layout channels); cbn; split;
      (reflexivity || discriminate). }
  split.
  - rewrite Hu, <- Z.eqb_eq, Hz.
    destruct (Z.leb_spec 1 channels), (Z.leb_spec channels 6),
      (Z.eqb_spec channels 8); cbn; split; intros; try lia; try discriminate;
      try (exfalso; auto; fail); auto.
  - intros Hk. apply orb_true_iff in Hl as [Hl|Hl]; apply Z.eqb_eq in Hl;
      [exfalso; apply Hk, Hu, Hl | exact Hl].
Qed.

Lemma convert_speaker_layout_supported_witness :
  (convert_speaker_layout 8 <> SPEAKERS_UNKNOWN <-> 1 <= 8 <= 6 \/ 8 = 8)
  /\ (convert_speaker_layout 8 <> SPEAKERS_UNKNOWN ->
      layout_channels (convert_speaker_layout 8) = 8).
Proof. apply (convert_speaker_layout_supported 8). lia. Defined.

Lemma frames_of_msec_exact (k : Z) :
  1 <= k <= 2000 ->
  frames_of_msec (100 * k) BUFFER_SIZE_MSEC = 101 * k
  /\ frames_of_msec (100 * k) OVERLAP_SIZE_MSEC = 34 * k.
Proof.
  intros Hk.
  assert (Hall : (frames_of_msec (100 * k) BUFFER_SIZE_MSEC =? 101 * k)
                 && (frames_of_msec (100 * k) OVERLAP_SIZE_MSEC =? 34 * k) = true).
  { apply (all_from_spec 2000
             (fun k => (frames_of_msec (100 * k) BUFFER_SIZE_MSEC =? 101 * k)
                       && (frames_of_msec (100 * k) OVERLAP_SIZE_MSEC =? 34 * k)) 1);
      [vm_compute; reflexivity | lia]. }
  apply andb_true_iff in Hall as [H1 H2]. split; now apply Z.eqb_eq.
Qed.

(** X14.  On a host with at most two channels, at every host sample rate
    that is a multiple of 100 Hz, up to 200 kHz, the configuration sizes
    the window to exactly 1010 ms and the overlap to exactly 340 ms of
    frames, and gives every channel an analysis buffer of the window's
    capacity and empty input and output buffers.  It leaves
    [last_num_frames] as it found it, so the state is ready for the first
    cycle exactly when that field, which nothing has assigned on a new
    filter, holds 0 or a length between the overlap and the window.  With
    more than two channels the configuration runs over the arrays of the
    struct. *)
Theorem cleanstream_update_sizes {sample : Type} (gf : cleanstream_data sample)
    (host_channels k : Z) (threshold : f32.t) (junk : sample) :
  1 <= k <= 2000 -> 0 <= host_channels ->
  (host_channels <= MAX_PREPROC_CHANNELS ->
   exists gf',
     cleanstream_update gf host_channels (100 * k) threshold junk = Some gf'
     /\ sample_rate gf' = 100 * k
     /\ frames gf' = 101 * k
     /\ overlap_frames gf' = 34 * k
     /\ overlap_ms gf' = OVERLAP_SIZE_MSEC
     /\ channels gf' = host_channels
     /\ Forall (fun ch => Z.of_nat (length (copy_buffer ch)) = frames gf'
                          /\ input_buffer ch = [] /\ output_buffer ch = [])
          (buffers gf')
     /\ last_num_frames gf' = last_num_frames gf
     /\ (ready gf' <->
         last_num_frames gf = 0
         \/ overlap_frames gf' <= last_num_frames gf <= frames gf'))
  /\ (MAX_PREPROC_CHANNELS < host_channels ->
      cleanstream_update gf host_channels (100 * k) threshold junk = None).
Proof.
  intros Hk Hc.
  destruct (frames_of_msec_exact k Hk) as [Hf Ho].
  unfold cleanstream_update. split; intros Hch.
  - destruct (Z.leb_spec host_channels MAX_PREPROC_CHANNELS); [|lia].
    eexists. split; [reflexivity|].
    cbn [sample_rate frames overlap_frames overlap_ms buffers last_num_frames].
    rewrite Hf, Ho.
    assert (Hbuf : Forall (fun ch : channel_buffers sample =>
                             Z.of_nat (length (copy_buffer ch)) = 101 * k
                             /\ input_buffer ch = [] /\ output_buffer ch = [])
                     (repeat (mk_channel (repeat junk (Z.to_nat (101 * k))) [] [])
                        (Z.to_nat host_channels))).
    { apply Forall_forall. intros ch Hin. apply repeat_spec in Hin. subst ch.
      cbn [copy_buffer input_buffer output_buffer]. rewrite repeat_length.
      repeat split. lia. }
    do 4 (split; [reflexivity|]).
    split; [unfold channels; cbn [buffers]; rewrite repeat_length; lia|].
    split; [exact Hbuf|]. split; [reflexivity|]. split.
    + intros (_ & _ & Hlast & _). exact Hlast.
    + intros Hlast. unfold ready.
      cbn [frames overlap_frames last_num_frames buffers].
      split; [lia|]. split; [lia|]. split; [exact Hlast|].
      eapply Forall_impl; [|exact Hbuf]. intros ch (Hl & _). exact Hl.
  - destruct (Z.leb_spec host_channels MAX_PREPROC_CHANNELS); [lia | reflexivity].
Qed.

Lemma cleanstream_update_sizes_witness :
  (1 <= MAX_PREPROC_CHANNELS ->
   exists gf',
     configured 0 = Some gf'
     /\ sample_rate gf' = 100 * 160
     /\ frames gf' = 101 * 160
     /\ overlap_frames gf' = 34 * 160
     /\ overlap_ms gf' = OVERLAP_SIZE_MSEC
     /\ channels gf' = 1
     /\ Forall (fun ch => Z.of_nat (length (copy_buffer ch)) = frames gf'
                          /\ input_buffer ch = [] /\ output_buffer ch = [])
          (buffers gf')
     /\ last_num_frames gf' = 0
     /\ (ready gf' <-> 0 = 0 \/ overlap_frames gf' <= 0 <= frames gf'))
  /\ (MAX_PREPROC_CHANNELS < 1 -> configured 0 = None).
Proof.
  apply (cleanstream_update_sizes (mk_data 0 0 0 0 0 [] [] [] true f32.zero)
           1 160 (f32.lit 3 4) f32.zero); lia.
Defined.

(** ** Further properties of the drain *)

Lemma queued_frames_prefix (p s : list cleanstream_audio_info) :
  Forall (fun i => 0 <= info_frames i) (p ++ s) ->
  queued_frames p <= queued_frames (p ++ s).
Proof.
  intros Hpos. apply Forall_app in Hpos as [_ Hs].
  rewrite queued_frames_app. pose proof (queued_frames_nonneg _ Hs). lia.
Qed.

(** X15.  The drain takes whole packets from the front of the info queue
    and never splits one.  Either no packet brings the count to the
    target: the drain empties the queue and counts all its frames, and
    every non-empty prefix of the queue counts fewer frames than the
    target.  Or the drain stops on the first packet with which the count
    reaches the target: it counts the packets before it, every non-empty
    prefix of which counts fewer frames than the target, and leaves the
    packets after it followed by that one. *)
Theorem drain_infos_split (target : Z) (q : list cleanstream_audio_info) :
  Forall (fun i => 0 <= info_frames i) q -> queued_frames q < 2 ^ 32 ->
  let '(num_new, _, q') := drain_infos target q 0 0 in
  (q' = [] /\ num_new = queued_frames q
   /\ forall p s, q = p ++ s -> p <> [] -> queued_frames p < target)
  \/ (exists taken i rest,
        q = taken ++ i :: rest
        /\ q' = rest ++ [i]
        /\ num_new = queued_frames taken
        /\ (forall p s, taken = p ++ s -> p <> [] -> queued_frames p < target)
        /\ target <= queued_frames taken + info_frames i).
Proof.
  intros Hpos Hsum.
  assert (Hgen : forall q acc ts,
             Forall (fun i => 0 <= info_frames i) q ->
             0 <= acc -> acc + queued_frames q < 2 ^ 32 ->
             let '(num_new, _, q') := drain_infos target q acc ts in
             (q' = [] /\ num_new = acc + queued_frames q
              /\ (q = [] \/ num_new < target))
             \/ (exists taken i rest,
                   q = taken ++ i :: rest
                   /\ q' = rest ++ [i]
                   /\ num_new = acc + queued_frames taken
                   /\ (taken = [] \/ num_new < target)
                   /\ num_new + info_frames i >= target)).
  { clear. induction q as [|i rest IH]; intros acc ts Hpos Hacc Hsum.
    - cbn. left. split; [reflexivity | split; [lia | now left]].
    - inversion Hpos as [|? ? Hi Hrest]; subst.
      pose proof (queued_frames_nonneg _ Hrest) as Hq.
      cbn [drain_infos queued_frames fold_right] in *.
      fold (queued_frames rest) in *.
      rewrite (wrap32_small (acc + info_frames i)) by lia.
      destruct (Z.geb_spec (acc + info_frames i) target) as [Hge|Hlt].
      + right. exists [], i, rest. cbn.
        replace (acc + info_frames i - info_frames i) with acc by lia.
        rewrite wrap32_small by lia. repeat split; try lia. now left.
      + specialize (IH (acc + info_frames i)
                      (if ts =? 0 then info_timestamp i else ts) Hrest
                      ltac:(lia) ltac:(lia)).
        destruct (drain_infos target rest (acc + info_frames i) _)
          as [[n ts'] q'].
        destruct IH as [(-> & -> & Hlast)
                       |(taken & j & rest' & -> & -> & -> & Hlast & Hge)].
        * left. split; [reflexivity | split; [lia|]]. right.
          destruct Hlast as [->|Hlast]; [cbn; lia | lia].
        * right. exists (i :: taken), j, rest'. cbn.
          fold (queued_frames taken). repeat split; try lia. right.
          destruct Hlast as [->|Hlast]; [cbn; lia | lia]. }
  specialize (Hgen q 0 0 Hpos ltac:(lia) ltac:(lia)).
  destruct (drain_infos target q 0 0) as [[n ts] q'].
  destruct Hgen as [(-> & -> & Hlast)
                   |(taken & i & rest & -> & -> & -> & Hlast & Hge)].
  - left. split; [reflexivity | split; [lia|]].
    intros p s -> Hp. pose proof (queued_frames_prefix p s Hpos).
    destruct Hlast as [Hnil|Hlast]; [|lia].
    apply app_eq_nil in Hnil as [-> _]. contradiction.
  - right. exists taken, i, rest. split; [reflexivity|]. split; [reflexivity|].
    split; [lia|]. split; [|lia].
    intros p s -> Hp. apply Forall_app in Hpos as [Hpos _].
    pose proof (queued_frames_prefix p s Hpos).
    destruct Hlast as [Hnil|Hlast]; [|lia].
    apply app_eq_nil in Hnil as [-> _]. contradiction.
Qed.

Lemma drain_infos_split_witness :
  let '(num_new, _, q') :=
    drain_infos 15 [mk_info 10 1; mk_info 10 2; mk_info 5 3] 0 0 in
  (q' = [] /\ num_new = queued_frames [mk_info 10 1; mk_info 10 2; mk_info 5 3]
   /\ forall p s, [mk_info 10 1; mk_info 10 2; mk_info 5 3] = p ++ s -> p <> [] ->
                  queued_frames p < 15)
  \/ (exists taken i rest,
        [mk_info 10 1; mk_info 10 2; mk_info 5 3] = taken ++ i :: rest
        /\ q' = rest ++ [i]
        /\ num_new = queued_frames taken
        /\ (forall p s, taken = p ++ s -> p <> [] -> queued_frames p < 15)
        /\ 15 <= queued_frames taken + info_frames i).
Proof.
  apply (drain_infos_split 15 [mk_info 10 1; mk_info 10 2; mk_info 5 3]).
  - repeat constructor; discriminate.
  - reflexivity.
Defined.

(** X16.  When the first info popped carries a timestamp other than 0,
    that timestamp is the start timestamp of the window, however many
    infos the drain pops after it. *)
Theorem start_timestamp_is_first (target : Z) (i : cleanstream_audio_info)
    (rest : list cleanstream_audio_info) :
  info_timestamp i <> 0 ->
  snd (fst (drain_infos target (i :: rest) 0 0)) = info_timestamp i.
Proof. intros Hts. now apply drain_infos_start_first. Qed.

Lemma start_timestamp_is_first_witness :
  snd (fst (drain_infos 25 [mk_info 10 4; mk_info 10 5; mk_info 10 7] 0 0)) = 4.
Proof.
  apply (start_timestamp_is_first 25 (mk_info 10 4) [mk_info 10 5; mk_info 10 7]).
  discriminate.
Defined.

(** ** Further properties of the filler classification *)

(** The comparisons of [float] compose as those of an order. *)
Lemma SFltb_leb_trans (a b c : spec_float) :
  SFleb a b = true -> SFltb b c = true -> SFltb a c = true.
Proof.
  unfold SFleb, SFltb, SFcompare.
  destruct a as [sa|sa| |sa ma ea], b as [sb|sb| |sb mb eb],
    c as [sc|sc| |sc mc ec];
    try discriminate; try reflexivity;
    repeat match goal with s : bool |- _ => destruct s end;
    try discriminate; try reflexivity;
    repeat match goal with
      | |- context [Pos.compare_cont Eq ?x ?y] =>
          change (Pos.compare_cont Eq x y) with (Pos.compare x y)
      end;
    repeat match goal with
      | |- context [Z.compare ?x ?y] => destruct (Z.compare_spec x y)
      | |- context [Pos.compare ?x ?y] => destruct (Pos.compare_spec x y)
      end;
    cbn; intros; subst; try discriminate; try reflexivity; lia.
Qed.

(** X17.  Lowering the threshold never loses a detection: a transcript
    classified as filler at one threshold is classified as filler at every
    threshold that is less than or equal to it. *)
Theorem filler_threshold_monotone (context : bool) (whisper_full_result : Z)
    (text : string) (token_p : list f32.t) (threshold threshold' : f32.t) :
  f32.leb threshold' threshold = true ->
  run_whisper_inference context whisper_full_result text token_p threshold = true ->
  run_whisper_inference context whisper_full_result text token_p threshold' = true.
Proof.
  intros Hle. unfold run_whisper_inference.
  destruct (negb context); [discriminate|].
  destruct (negb (whisper_full_result =? 0)); [discriminate|].
  rewrite !is_filler_existsb, !orb_true_iff, !andb_true_iff.
  intros [[Hb Hp]|He]; [left | now right].
  split; [exact Hb|]. exact (SFltb_leb_trans _ _ _ Hle Hp).
Qed.

Lemma filler_threshold_monotone_witness :
  run_whisper_inference true 0 "[BLANK_AUDIO]" [f32.lit 9 10] (f32.lit 1 2) = true.
Proof.
  apply (filler_threshold_monotone true 0 "[BLANK_AUDIO]" [f32.lit 9 10]
           (f32.lit 3 4) (f32.lit 1 2)); vm_compute; reflexivity.
Defined.

Lemma to_lower_app (a b : string) :
  to_lower (a ++ b) = (to_lower a ++ to_lower b)%string.
Proof. induction a as [|c a IH]; cbn; [reflexivity | now rewrite IH]. Qed.

Lemma append_assoc (a b c : string) : ((a ++ b) ++ c = a ++ b ++ c)%string.
Proof. induction a as [|x a IH]; cbn; [reflexivity | now rewrite IH]. Qed.

Lemma contains_embed (s pat pre post : string) :
  contains s pat -> contains (pre ++ s ++ post) pat.
Proof.
  intros (p & q & ->). exists (pre ++ p)%string, (q ++ post)%string.
  now rewrite !append_assoc.
Qed.

(** X18.  The classification looks for its patterns anywhere in the
    transcript: a transcript that is classified as filler stays so when
    text is added before or after it, the token probabilities being the
    same. *)
Theorem filler_survives_context (context : bool) (whisper_full_result : Z)
    (text pre post : string) (token_p : list f32.t) (threshold : f32.t) :
  run_whisper_inference context whisper_full_result text token_p threshold = true ->
  run_whisper_inference context whisper_full_result (pre ++ text ++ post)
    token_p threshold = true.
Proof.
  unfold run_whisper_inference.
  destruct (negb context); [discriminate|].
  destruct (negb (whisper_full_result =? 0)); [discriminate|].
  rewrite !is_filler_spec, !to_lower_app.
  intros [[Hb Hp]|He].
  - left. split; [now apply contains_embed | exact Hp].
  - right. eapply Exists_impl; [|exact He].
    intros d Hd. now apply contains_embed.
Qed.

Lemma filler_survives_context_witness :
  run_whisper_inference true 0 ("so " ++ "Um, well" ++ " yes") [] (f32.lit 3 4)
  = true.
Proof.
  apply (filler_survives_context true 0 "Um, well" "so " " yes" [] (f32.lit 3 4)).
  vm_compute. reflexivity.
Defined.

Lemma tolower_idempotent (c : ascii) : tolower (tolower c) = tolower c.
Proof.
  destruct c as [b0 b1 b2 b3 b4 b5 b6 b7].
  destruct b0, b1, b2, b3, b4, b5, b6, b7; reflexivity.
Qed.

Lemma to_lower_idempotent (s : string) : to_lower (to_lower s) = to_lower s.
Proof.
  induction s as [|c s IH]; cbn; [reflexivity|].
  now rewrite tolower_idempotent, IH.
Qed.

(** X19.  The classification does not see the case of ASCII letters: a
    transcript and its lower-cased form are classified alike. *)
Theorem filler_ignores_case (context : bool) (whisper_full_result : Z)
    (text : string) (token_p : list f32.t) (threshold : f32.t) :
  run_whisper_inference context whisper_full_result (to_lower text) token_p threshold
  = run_whisper_inference context whisper_full_result text token_p threshold.
Proof.
  unfold run_whisper_inference, is_filler. now rewrite to_lower_idempotent.
Qed.
